(** * Retrieval scorers of [A2_2.py]: a shallow embedding and its properties

    The development embeds [DocumentCollection] and the five [Scorer]
    subclasses of [Assigments/A2_2/A2_2.py].

    Modelling choices.
    - Python [float] values are idealised as real numbers ([R]); Python
      [int] values that are lengths and counts are [nat], injected with
      [INR] where the source mixes them with floats.
    - An exception is a value of [exn]; code that can raise returns a
      [result].  True division raises [ZeroDivisionError] on a zero
      divisor and [math.log] raises [ValueError] outside its domain, as
      CPython does.
    - A [dict] that is only looked up is a [gmap]; the collection, which is
      iterated, keeps its insertion order as a list of items whose keys are
      pairwise distinct ([NoDup], stated where it is needed).
    - [self.scores] is threaded through [score_term] explicitly.
    - The [Scorer] type holds the configuration of a constructed scorer;
      the check of [__init__], which raises [ValueError] for a scorer built
      with neither [field] nor [fields], is modelled apart by the [_init]
      functions. *)

From Stdlib Require Import Reals Lra.
From stdpp Require Import base option list strings gmap.

Open Scope R_scope.

(** ** Exceptions and results *)

Inductive exn : Set :=
| KeyError
| IndexError
| ZeroDivisionError
| ValueError.

Inductive result (A : Type) : Type :=
| Ok (a : A)
| Raise (e : exn).
Arguments Ok {A} a.
Arguments Raise {A} e.

#[global] Instance result_ret : MRet result := λ A a, Ok a.
#[global] Instance result_bind : MBind result :=
  λ A B f m, match m with Ok a => f a | Raise e => Raise e end.

(** ** Python primitives *)

(** [d[k]] on a [dict]. *)
Definition getitem {V} (d : gmap string V) (k : string) : result V :=
  match d !! k with
  | Some v => Ok v
  | None => Raise KeyError
  end.

(** [l[i]] on a [list], for the non-negative indices [enumerate] yields. *)
Definition list_getitem {A} (l : list A) (i : nat) : result A :=
  match l !! i with
  | Some v => Ok v
  | None => Raise IndexError
  end.

(** [x / y]. *)
Definition py_div (x y : R) : result R :=
  if Req_dec_T y 0 then Raise ZeroDivisionError else Ok (x / y).

(** [math.log(x)]. *)
Definition math_log (x : R) : result R :=
  if Rlt_dec 0 x then Ok (ln x) else Raise ValueError.

(** [l.count(x)]. *)
Fixpoint count (x : string) (l : list string) : nat :=
  match l with
  | [] => 0
  | y :: l' => if bool_decide (y = x) then S (count x l') else count x l'
  end.

(** [x in l]. *)
Definition contains (x : string) (l : list string) : bool :=
  bool_decide (x ∈ l).

(** [Counter(l).items()]: the distinct elements in order of first
    occurrence, each with its number of occurrences. *)
Fixpoint Counter_incr (t : string) (c : list (string * nat)) : list (string * nat) :=
  match c with
  | [] => [(t, 1%nat)]
  | (k, n) :: c' =>
      if bool_decide (k = t) then (k, S n) :: c' else (k, n) :: Counter_incr t c'
  end.

Definition Counter (l : list string) : list (string * nat) :=
  fold_left (λ c t, Counter_incr t c) l [].

(** ** Data model *)

(** A document: field name to term sequence. *)
Abbreviation Document := (gmap string (list string)).

(** [index[field][term]] is the posting list of the term in the field. *)
Abbreviation Index := (gmap string (gmap string (list string))).

(** [defaultdict(float)]: a missing key reads as [0.0]. *)
Abbreviation Scores := (gmap string R).

(** [DocumentCollection.items()], in insertion order. *)
Definition DocumentCollection : Type := list (string * Document).

Definition doc_ids (coll : DocumentCollection) : list string := coll.*1.

(** Reading [scores[d]] where absence means 0. *)
Definition score_of (scores : Scores) (doc_id : string) : R :=
  default 0 (scores !! doc_id).

(** [scores[doc_id] += x]. *)
Definition iadd (scores : Scores) (doc_id : string) (x : R) : Scores :=
  <[doc_id := score_of scores doc_id + x]> scores.

(** ** DocumentCollection *)

(** [sum(len(fields[field]) for fields in self.values())]. *)
Fixpoint total_field_length (coll : DocumentCollection) (field : string) : result nat :=
  match coll with
  | [] => Ok 0%nat
  | (_, fields) :: rest =>
      f ← getitem fields field;
      n ← total_field_length rest field;
      Ok (length f + n)%nat
  end.

(** [self.total_field_length(field) / len(self)]. *)
Definition avg_field_length (coll : DocumentCollection) (field : string) : result R :=
  total ← total_field_length coll field;
  py_div (INR total) (INR (length coll)).

(** [{doc_id: doc[field] for (doc_id, doc) in self.items() if field in doc}]. *)
Definition get_field_documents (coll : DocumentCollection) (field : string)
  : list (string * list string) :=
  omap (λ '(doc_id, doc), (λ f, (doc_id, f)) <$> (doc : Document) !! field) coll.

(** [sum([doc[field].count(term) for doc in self.collection.values()])]. *)
Fixpoint collection_count (coll : DocumentCollection) (field term : string) : result nat :=
  match coll with
  | [] => Ok 0%nat
  | (_, doc) :: rest =>
      f ← getitem doc field;
      n ← collection_count rest field term;
      Ok (count term f + n)%nat
  end.

(** ** Scorers *)

(** [for doc_id, doc in self.collection.items(): body], with the score
    accumulator passed along; the first exception ends the loop. *)
Fixpoint for_items (body : string → Document → Scores → result Scores)
    (items : DocumentCollection) (scores : Scores) : result Scores :=
  match items with
  | [] => Ok scores
  | (doc_id, doc) :: rest =>
      scores' ← body doc_id doc scores;
      for_items body rest scores'
  end.

(** [for field_index, field in enumerate(self.fields): body], with the two
    local variables the loop updates passed along. *)
Fixpoint for_enumerate (body : nat → string → R * R → result (R * R))
    (field_index : nat) (fields : list string) (acc : R * R) : result (R * R) :=
  match fields with
  | [] => Ok acc
  | field :: rest =>
      acc' ← body field_index field acc;
      for_enumerate body (S field_index) rest acc'
  end.

(** [math.log(len(self.collection) / len(self.index[field][term]))]. *)
Definition idf_of (coll : DocumentCollection) (index : Index) (field term : string)
  : result R :=
  by_term ← getitem index field;
  postings ← getitem by_term term;
  ratio ← py_div (INR (length coll)) (INR (length postings));
  math_log ratio.

Section Scorers.
(** [self.collection] and [self.index]. *)
Variable collection : DocumentCollection.
Variable index : Index.

(** *** SimpleScorer *)

(** Body of the loop of [SimpleScorer.score_term]. *)
Definition SimpleScorer_score_doc (field : string) (term : string) (query_freq : nat)
    (doc_id : string) (doc : Document) (scores : Scores) : result Scores :=
  f ← getitem doc field;
  if contains term f then
    Ok (iadd scores doc_id (INR (count term f * query_freq)))
  else Ok scores.

Definition SimpleScorer_score_term (field : string)
    (term : string) (query_freq : nat) : Scores → result Scores :=
  for_items (SimpleScorer_score_doc field term query_freq) collection.

(** *** ScorerBM25 *)

(** Body of the loop of [ScorerBM25.score_term]. *)
Definition ScorerBM25_score_doc (field : string) (b k1 : R)
    (term : string) (query_freq : nat)
    (doc_id : string) (doc : Document) (scores : Scores) : result Scores :=
  f ← getitem doc field;
  if contains term f then
    idf ← idf_of collection index field term;
    let c_t_d := INR (count term f) in
    let numerator := c_t_d * (1 + k1) in
    avg ← avg_field_length collection field;
    norm ← py_div (b * INR (length f)) avg;
    let denominator := c_t_d + k1 * (1 - b + norm) in
    frac ← py_div numerator denominator;
    Ok (iadd scores doc_id (frac * idf))
  else Ok scores.

Definition ScorerBM25_score_term (field : string) (b k1 : R)
    (term : string) (query_freq : nat) : Scores → result Scores :=
  for_items (ScorerBM25_score_doc field b k1 term query_freq) collection.

(** *** ScorerLM *)

(** Body of the loop of [ScorerLM.score_term]; [c_t_q], [lambda_] and
    [P_t_C] are the locals set before the loop. *)
Definition ScorerLM_score_doc (field : string) (term : string)
    (c_t_q lambda_ P_t_C : R)
    (doc_id : string) (doc : Document) (scores : Scores) : result Scores :=
  f ← getitem doc field;
  if contains term f then
    let c_t_d := INR (count term f) in
    p ← py_div c_t_d (INR (length f));
    l ← math_log ((1 - lambda_) * p + lambda_ * P_t_C);
    Ok (iadd scores doc_id (c_t_q * l))
  else Ok scores.

Definition ScorerLM_score_term (field : string) (smoothing_param : R)
    (term : string) (query_freq : nat) : Scores → result Scores :=
  λ scores,
    let c_t_q := INR query_freq in
    let lambda_ := smoothing_param in
    occurrences ← collection_count collection field term;
    total ← total_field_length collection field;
    P_t_C ← py_div (INR occurrences) (INR total);
    for_items (ScorerLM_score_doc field term c_t_q lambda_ P_t_C) collection scores.

(** *** ScorerBM25F *)

(** Body of the inner loop of [ScorerBM25F.score_term], over
    [enumerate(self.fields)]; the pair is [(c_t_d, idf)]. *)
Definition ScorerBM25F_score_field (field_weights bi : list R) (term : string)
    (doc : Document) (field_index : nat) (field : string) (acc : R * R)
    : result (R * R) :=
  let '(c_t_d, idf) := acc in
  b_i ← list_getitem bi field_index;
  f ← getitem doc field;
  avg ← avg_field_length collection field;
  norm ← py_div (b_i * INR (length f)) avg;
  let B_i := 1 - b_i + norm in
  w ← list_getitem field_weights field_index;
  frac ← py_div (INR (count term f)) B_i;
  let c_t_d := c_t_d + w * frac in
  if bool_decide (field = "body"%string) then
    idf ← idf_of collection index field term;
    Ok (c_t_d, idf)
  else Ok (c_t_d, idf).

(** Body of the outer loop of [ScorerBM25F.score_term]. *)
Definition ScorerBM25F_score_doc (fields : list string)
    (field_weights bi : list R) (k1 : R) (term : string) (query_freq : nat)
    (doc_id : string) (doc : Document) (scores : Scores) : result Scores :=
  '(c_t_d, idf) ←
    for_enumerate (ScorerBM25F_score_field field_weights bi term doc) 0%nat fields (0, 0);
  frac ← py_div c_t_d (k1 + c_t_d);
  Ok (iadd scores doc_id (frac * idf)).

Definition ScorerBM25F_score_term (fields : list string)
    (field_weights bi : list R) (k1 : R)
    (term : string) (query_freq : nat) : Scores → result Scores :=
  for_items (ScorerBM25F_score_doc fields field_weights bi k1 term query_freq) collection.

(** *** ScorerMLM *)

(** Body of the inner loop of [ScorerMLM.score_term]; the pair is
    [(c_t_d, P_t_C)]. *)
Definition ScorerMLM_score_field (field_weights : list R) (term : string)
    (doc : Document) (field_index : nat) (field : string) (acc : R * R)
    : result (R * R) :=
  let '(c_t_d, P_t_C) := acc in
  w ← list_getitem field_weights field_index;
  f ← getitem doc field;
  p ← py_div (INR (count term f)) (INR (length f));
  let c_t_d := c_t_d + w * p in
  occurrences ← collection_count collection field term;
  total ← total_field_length collection field;
  pc ← py_div (INR occurrences) (INR total);
  Ok (c_t_d, P_t_C + w * pc).

(** Body of the outer loop of [ScorerMLM.score_term]. *)
Definition ScorerMLM_score_doc (fields : list string)
    (field_weights : list R) (smoothing_param : R) (term : string) (query_freq : nat)
    (doc_id : string) (doc : Document) (scores : Scores) : result Scores :=
  let lambda_ := smoothing_param in
  '(c_t_d, P_t_C) ←
    for_enumerate (ScorerMLM_score_field field_weights term doc) 0%nat fields (0, 0);
  l ← math_log ((1 - lambda_) * c_t_d + lambda_ * P_t_C);
  Ok (iadd scores doc_id l).

Definition ScorerMLM_score_term (fields : list string)
    (field_weights : list R) (smoothing_param : R)
    (term : string) (query_freq : nat) : Scores → result Scores :=
  for_items (ScorerMLM_score_doc fields field_weights smoothing_param term query_freq)
    collection.

(** *** The shared protocol *)

(** The concrete subclasses of [Scorer], each with its configuration. *)
Inductive Scorer : Type :=
| SimpleScorer (field : string)
| ScorerBM25 (field : string) (b k1 : R)
| ScorerLM (field : string) (smoothing_param : R)
| ScorerBM25F (fields : list string) (field_weights bi : list R) (k1 : R)
| ScorerMLM (fields : list string) (field_weights : list R) (smoothing_param : R).

(** [self.score_term(term, query_freq)], dispatched on the class. *)
Definition score_term (self : Scorer) : string → nat → Scores → result Scores :=
  match self with
  | SimpleScorer field => SimpleScorer_score_term field
  | ScorerBM25 field b k1 => ScorerBM25_score_term field b k1
  | ScorerLM field smoothing_param => ScorerLM_score_term field smoothing_param
  | ScorerBM25F fields field_weights bi k1 =>
      ScorerBM25F_score_term fields field_weights bi k1
  | ScorerMLM fields field_weights smoothing_param =>
      ScorerMLM_score_term fields field_weights smoothing_param
  end.

(** [for term, query_freq in query_term_freqs.items(): self.score_term(...)]. *)
Fixpoint score_terms (self : Scorer) (query_term_freqs : list (string * nat))
    (scores : Scores) : result Scores :=
  match query_term_freqs with
  | [] => Ok scores
  | (term, query_freq) :: rest =>
      scores' ← score_term self term query_freq scores;
      score_terms self rest scores'
  end.

(** [Scorer.score_collection]. *)
Definition score_collection (self : Scorer) (query_terms : list string)
  : result Scores :=
  let scores : Scores := ∅ in
  let query_term_freqs := Counter query_terms in
  score_terms self query_term_freqs scores.

End Scorers.

(** ** The specification's reading of the statistics *)

(** Total field length as the specification words it: a document without
    the field counts for 0. *)
Definition spec_total_field_length (coll : DocumentCollection) (field : string) : nat :=
  sum_list ((λ item, length (default [] (item.2 !! field))) <$> coll).

(** ** Predicates and auxiliary notions of the statements *)

(** The property of an item of the collection that its document has, or
    lacks, a field. *)
Definition has_field (field : string) (item : string * Document) : Prop :=
  is_Some (item.2 !! field).

Definition lacks_field (field : string) (item : string * Document) : Prop :=
  item.2 !! field = None.

(** The contract of the index (specification, section 6): for every term
    of a field of a document of the collection, the index lists, under that
    field and term, a posting list that has the document's id. *)
Definition index_consistent (coll : DocumentCollection) (idx : Index) : Prop :=
  ∀ doc_id (doc : Document) field f term,
    (doc_id, doc) ∈ coll → doc !! field = Some f → term ∈ f →
    ∃ by_term postings,
      idx !! field = Some by_term ∧ by_term !! term = Some postings ∧
      doc_id ∈ postings.

(** A loop body that writes no score but that of its own document. *)
Definition own_score_only (body : string → Document → Scores → result Scores) : Prop :=
  ∀ doc_id doc s s', body doc_id doc s = Ok s' →
    ∀ d, d ≠ doc_id → s' !! d = s !! d.

(** Adding a list of per-document contributions, in order. *)
Fixpoint apply_deltas (ds : list (string * R)) (s : Scores) : Scores :=
  match ds with
  | [] => s
  | (d, x) :: ds' => apply_deltas ds' (iadd s d x)
  end.

(** The total a list of contributions holds for one document. *)
Fixpoint delta_sum (ds : list (string * R)) (d : string) : R :=
  match ds with
  | [] => 0
  | (d', x) :: ds' => (if bool_decide (d' = d) then x else 0) + delta_sum ds' d
  end.

(** A run that either raises whatever the accumulator holds, or adds
    contributions that do not depend on it. *)
Definition accumulates (run : Scores → result Scores) : Prop :=
  (∃ e, ∀ s, run s = Raise e) ∨ (∃ ds, ∀ s, run s = Ok (apply_deltas ds s)).

(** Every score of [sB] is [k] times the score of [sF]. *)
Definition scaled (k : R) (sF sB : Scores) : Prop :=
  ∀ d, score_of sB d = k * score_of sF d.

(** The count a [Counter] holds for a key. *)
Fixpoint Counter_get (c : list (string * nat)) (t : string) : nat :=
  match c with
  | [] => 0
  | (k, n) :: c' => if bool_decide (k = t) then n else Counter_get c' t
  end.

(** Keys are distinct and every stored count is positive. *)
Definition Counter_wf (c : list (string * nat)) : Prop :=
  NoDup c.*1 ∧ Forall (λ kn, (0 < kn.2)%nat) c.

(** ** Concrete inputs *)

(** The collection of the specification's scenario: both documents have a
    body. *)
Definition coll_two_bodies : DocumentCollection :=
  [("d1"%string, {["body"%string := ["a"; "b"; "a"]%string]});
   ("d2"%string, {["body"%string := ["b"; "b"]%string]})].

(** The index of the specification's scenario. *)
Definition index_two_bodies : Index :=
  {["body"%string :=
      {["a"%string := ["d1"%string]; "b"%string := ["d1"; "d2"]%string]}]}.

(** A collection whose second document has a title and no body, and
    whose first has a body and no title. *)
Definition coll_missing_body : DocumentCollection :=
  [("d1"%string, {["body"%string := ["a"; "b"]%string]});
   ("d2"%string, {["title"%string := ["c"]%string]})].

(** An index of [coll_missing_body]. *)
Definition index_missing_body : Index :=
  {["body"%string := {["a"%string := ["d1"%string]; "b"%string := ["d1"%string]]};
    "title"%string := {["c"%string := ["d2"%string]]}]}.

(** ** Construction of scorers *)

(** Truth value of an optional string or list: [None] and the empty value
    are false. *)
Definition truthy_str (x : option string) : bool :=
  match x with
  | Some s => bool_decide (s ≠ ""%string)
  | None => false
  end.

Definition truthy_list (x : option (list string)) : bool :=
  match x with
  | Some l => bool_decide (l ≠ [])
  | None => false
  end.

(** [Scorer.__init__]: the check [if not (field or fields): raise
    ValueError]. *)
Definition Scorer_init (field : option string) (fields : option (list string))
  : result unit :=
  if negb (truthy_str field || truthy_list fields) then Raise ValueError else Ok ().

(** [SimpleScorer(collection, index, field)]. *)
Definition SimpleScorer_init (field : string) : result Scorer :=
  _ ← Scorer_init (Some field) None; Ok (SimpleScorer field).

(** [ScorerBM25.__init__]: [super().__init__(collection, index, field)]. *)
Definition ScorerBM25_init (field : string) (b k1 : R) : result Scorer :=
  _ ← Scorer_init (Some field) None; Ok (ScorerBM25 field b k1).

(** [ScorerLM.__init__]. *)
Definition ScorerLM_init (field : string) (smoothing_param : R) : result Scorer :=
  _ ← Scorer_init (Some field) None; Ok (ScorerLM field smoothing_param).

(** [ScorerBM25F.__init__]: [super().__init__(collection, index,
    fields=fields)]. *)
Definition ScorerBM25F_init (fields : list string) (field_weights bi : list R)
    (k1 : R) : result Scorer :=
  _ ← Scorer_init None (Some fields); Ok (ScorerBM25F fields field_weights bi k1).

(** [ScorerMLM.__init__]. *)
Definition ScorerMLM_init (fields : list string) (field_weights : list R)
    (smoothing_param : R) : result Scorer :=
  _ ← Scorer_init None (Some fields);
  Ok (ScorerMLM fields field_weights smoothing_param).

(** ** Further notions of the statements *)

(** The scorers whose [score_term] does not read [query_freq]. *)
Definition ignores_query_freq (self : Scorer) : Prop :=
  match self with
  | SimpleScorer _ | ScorerLM _ _ => False
  | ScorerBM25 _ _ _ | ScorerBM25F _ _ _ _ | ScorerMLM _ _ _ => True
  end.

(** The sum, over the items of a [Counter], of the item's count times the
    number of occurrences of its term in [f]. *)
Fixpoint Counter_dot (c : list (string * nat)) (f : list string) : nat :=
  match c with
  | [] => 0
  | (t, q) :: c' => count t f * q + Counter_dot c' f
  end.

(** A collection whose documents have a title and a body, with its
    index. *)
Definition coll_title_body : DocumentCollection :=
  [("d1"%string,
    {["title"%string := ["a"%string]; "body"%string := ["a"; "b"]%string]});
   ("d2"%string,
    {["title"%string := ["b"%string]; "body"%string := ["b"%string]]})].

Definition index_title_body : Index :=
  {["title"%string := {["a"%string := ["d1"%string]; "b"%string := ["d2"%string]]};
    "body"%string := {["a"%string := ["d1"%string]; "b"%string := ["d1"; "d2"]%string]}]}.

(** ** Basic facts about the primitives *)

Lemma bind_Ok_inv {A B} (m : result A) (k : A → result B) (b : B) :
  m ≫= k = Ok b → ∃ a, m = Ok a ∧ k a = Ok b.
Proof. destruct m as [a|e]; cbn; [eauto | discriminate]. Qed.

Lemma getitem_Ok {V} (d : gmap string V) k v : getitem d k = Ok v ↔ d !! k = Some v.
Proof. unfold getitem. destruct (d !! k); split; congruence. Qed.

Lemma py_div_Ok x y : y ≠ 0 → py_div x y = Ok (x / y).
Proof. intros Hy. unfold py_div. destruct (Req_dec_T y 0); [contradiction | done]. Qed.

Lemma py_div_zero x : py_div x 0 = Raise ZeroDivisionError.
Proof. unfold py_div. destruct (Req_dec_T 0 0); [done | contradiction]. Qed.

Lemma py_div_Ok_inv x y r : py_div x y = Ok r → y ≠ 0 ∧ r = x / y.
Proof. unfold py_div. destruct (Req_dec_T y 0); [discriminate | intros [= <-]; done]. Qed.

Lemma math_log_Ok x : 0 < x → math_log x = Ok (ln x).
Proof. intros Hx. unfold math_log. destruct (Rlt_dec 0 x); [done | contradiction]. Qed.

Lemma math_log_Ok_inv x r : math_log x = Ok r → 0 < x ∧ r = ln x.
Proof. unfold math_log. destruct (Rlt_dec 0 x); [intros [= <-]; done | discriminate]. Qed.

Lemma contains_true x l : contains x l = true ↔ x ∈ l.
Proof. unfold contains. apply bool_decide_eq_true. Qed.

Lemma contains_false x l : contains x l = false ↔ x ∉ l.
Proof. unfold contains. apply bool_decide_eq_false. Qed.

(** Inversion of a successful run of monadic code, one bind at a time. *)
Ltac inv_ok :=
  repeat match goal with
  | H : _ ≫= _ = Ok _ |- _ =>
      let a := fresh "a" in let Ha := fresh "Ha" in
      apply bind_Ok_inv in H as (a & Ha & H)
  | H : Ok _ = Ok _ |- _ => injection H as H
  | H : Raise _ = Ok _ |- _ => discriminate H
  | H : py_div _ _ = Ok _ |- _ => apply py_div_Ok_inv in H as [? ?]
  | H : math_log _ = Ok _ |- _ => apply math_log_Ok_inv in H as [? ?]
  | H : getitem _ _ = Ok _ |- _ => apply getitem_Ok in H
  end.

(** ** Collection statistics *)

Lemma total_field_length_has coll field :
  Forall (has_field field) coll →
  total_field_length coll field = Ok (spec_total_field_length coll field).
Proof.
  induction 1 as [|[doc_id doc] rest [f Hf] _ IH]; [done|].
  cbn in *. unfold getitem. rewrite Hf. cbn. by rewrite IH.
Qed.

Lemma total_field_length_lacks coll field :
  Exists (lacks_field field) coll →
  total_field_length coll field = Raise KeyError.
Proof.
  induction 1 as [[doc_id doc] rest Hlack|[doc_id doc] rest _ IH]; cbn in *.
  - unfold lacks_field in Hlack. cbn in Hlack. unfold getitem. by rewrite Hlack.
  - unfold getitem. destruct (doc !! field); [cbn; by rewrite IH | done].
Qed.

Lemma collection_count_lacks coll field term :
  Exists (lacks_field field) coll →
  collection_count coll field term = Raise KeyError.
Proof.
  induction 1 as [[doc_id doc] rest Hlack|[doc_id doc] rest _ IH]; cbn in *.
  - unfold lacks_field in Hlack. cbn in Hlack. unfold getitem. by rewrite Hlack.
  - unfold getitem. destruct (doc !! field); [cbn; by rewrite IH | done].
Qed.

Lemma INR_length_nonzero {A} (l : list A) : l ≠ [] → INR (length l) ≠ 0.
Proof. intros Hl. apply not_0_INR. by destruct l. Qed.

(** C5, as the code has it: [total_field_length] returns the sum of the
    field's lengths when every document has the field, and raises
    [KeyError] as soon as one document lacks it. *)
Theorem total_field_length_sum_or_KeyError (field : string) :
  (∀ coll, Forall (has_field field) coll →
     total_field_length coll field = Ok (spec_total_field_length coll field)) ∧
  (∀ coll, Exists (lacks_field field) coll →
     total_field_length coll field = Raise KeyError).
Proof.
  split; intros coll H.
  - by apply total_field_length_has.
  - by apply total_field_length_lacks.
Qed.

Lemma total_field_length_sum_or_KeyError_witness :
  total_field_length coll_two_bodies "body" = Ok 5%nat ∧
  total_field_length coll_missing_body "body" = Raise KeyError.
Proof.
  split.
  - apply (proj1 (total_field_length_sum_or_KeyError "body") coll_two_bodies).
    repeat constructor; eexists; reflexivity.
  - apply (proj2 (total_field_length_sum_or_KeyError "body") coll_missing_body).
    apply Exists_cons_tl, Exists_cons_hd. reflexivity.
Defined.

(** C5 as worded fails: [d2] has no body; the specification's sum
    counts 0 for it and gives 2, the code raises [KeyError]. *)
Lemma total_field_length_missing_field_raises :
  spec_total_field_length coll_missing_body "body" = 2%nat ∧
  total_field_length coll_missing_body "body" = Raise KeyError ∧
  total_field_length coll_missing_body "body"
    ≠ Ok (spec_total_field_length coll_missing_body "body").
Proof. split; [reflexivity|]. split; [reflexivity | discriminate]. Qed.

(** C7: [avg_field_length] raises [ZeroDivisionError] on the empty
    collection, and on a non-empty one it is [total_field_length] divided
    by the number of documents. *)
Theorem avg_field_length_empty_or_mean (field : string) :
  avg_field_length [] field = Raise ZeroDivisionError ∧
  (∀ coll, coll ≠ [] →
     avg_field_length coll field =
       total ← total_field_length coll field;
       Ok (INR total / INR (length coll))).
Proof.
  split.
  - unfold avg_field_length. cbn. apply py_div_zero.
  - intros coll Hne. unfold avg_field_length.
    destruct (total_field_length coll field) as [total|e]; cbn; [|done].
    apply py_div_Ok. by apply INR_length_nonzero.
Qed.

Lemma avg_field_length_empty_or_mean_witness :
  avg_field_length coll_two_bodies "body" = Ok (INR 5 / INR 2).
Proof.
  apply (proj2 (avg_field_length_empty_or_mean "body") coll_two_bodies).
  discriminate.
Defined.

(** C8: for each of the five scorers, an empty query returns the empty
    score mapping, whatever the collection and the index. *)
Theorem score_collection_empty_query
    (coll : DocumentCollection) (idx : Index) (self : Scorer) :
  score_collection coll idx self [] = Ok ∅.
Proof. reflexivity. Qed.

(** ** The score accumulator *)

Lemma score_of_empty d : score_of ∅ d = 0.
Proof. unfold score_of. by rewrite lookup_empty. Qed.

Lemma lookup_iadd_eq (s : Scores) d x : iadd s d x !! d = Some (score_of s d + x).
Proof. unfold iadd. apply lookup_insert_eq. Qed.

Lemma lookup_iadd_ne (s : Scores) d d' x : d ≠ d' → iadd s d x !! d' = s !! d'.
Proof. intros Hne. unfold iadd. by apply lookup_insert_ne. Qed.

Lemma score_of_iadd_eq (s : Scores) d x : score_of (iadd s d x) d = score_of s d + x.
Proof. unfold score_of at 1. by rewrite lookup_iadd_eq. Qed.

Lemma score_of_iadd_ne (s : Scores) d d' x :
  d ≠ d' → score_of (iadd s d x) d' = score_of s d'.
Proof. intros Hne. unfold score_of. by rewrite lookup_iadd_ne. Qed.

Lemma score_of_lookup_eq (s1 s2 : Scores) d :
  s1 !! d = s2 !! d → score_of s1 d = score_of s2 d.
Proof. unfold score_of. by intros ->. Qed.

(** ** The loop over the collection *)

Lemma for_items_other body items s s' d :
  own_score_only body →
  for_items body items s = Ok s' →
  d ∉ doc_ids items →
  s' !! d = s !! d.
Proof.
  intros Hown. revert s.
  induction items as [|[doc_id doc] rest IH]; intros s Hrun Hd; cbn in *.
  - by injection Hrun as <-.
  - inv_ok. apply not_elem_of_cons in Hd as [Hne Hd].
    rewrite (IH _ Hrun Hd). by eapply Hown.
Qed.

(** With distinct document ids, the final score of a document is the one
    its own iteration left, and that iteration saw its initial score. *)
Lemma for_items_at body items s s' doc_id doc :
  own_score_only body →
  NoDup (doc_ids items) →
  (doc_id, doc) ∈ items →
  for_items body items s = Ok s' →
  ∃ s1 s2, body doc_id doc s1 = Ok s2 ∧
    s1 !! doc_id = s !! doc_id ∧ s' !! doc_id = s2 !! doc_id.
Proof.
  intros Hown. revert s.
  induction items as [|[id0 doc0] rest IH]; intros s Hnd Hin Hrun; cbn in *.
  - by apply elem_of_nil in Hin.
  - apply NoDup_cons in Hnd as [Hfresh Hnd]. inv_ok.
    apply elem_of_cons in Hin as [[= -> ->]|Hin].
    + exists s, a. split; [done|]. split; [done|].
      by eapply for_items_other.
    + destruct (IH _ Hnd Hin Hrun) as (s1 & s2 & Hbody & Hs1 & Hs2).
      exists s1, s2. split; [done|]. split; [|done].
      rewrite Hs1. eapply Hown; [done|].
      intros ->. apply Hfresh. unfold doc_ids.
      apply list_elem_of_fmap. by exists (id0, doc).
Qed.

(** ** Query term frequencies *)

Lemma Counter_get_incr t c t' :
  Counter_get (Counter_incr t c) t' =
    if bool_decide (t = t') then S (Counter_get c t') else Counter_get c t'.
Proof.
  induction c as [|[k n] c IH]; cbn.
  - by case_bool_decide.
  - destruct (bool_decide_reflect (k = t)) as [->|Hkt]; cbn.
    + by case_bool_decide.
    + rewrite IH. destruct (bool_decide_reflect (k = t')) as [->|Hkt'].
      * by rewrite bool_decide_eq_false_2.
      * done.
Qed.

Lemma Counter_incr_keys t c :
  (Counter_incr t c).*1 = if bool_decide (t ∈ c.*1) then c.*1 else c.*1 ++ [t].
Proof.
  induction c as [|[k n] c IH]; cbn; [done|].
  destruct (bool_decide_reflect (k = t)) as [->|Hkt]; cbn.
  - rewrite bool_decide_eq_true_2; [done | by left].
  - rewrite IH. destruct (bool_decide_reflect (t ∈ c.*1)) as [Hin|Hnin].
    + rewrite bool_decide_eq_true_2; [done | by right].
    + rewrite bool_decide_eq_false_2; [done|].
      intros [->|?]%elem_of_cons; done.
Qed.

Lemma Counter_incr_wf t c : Counter_wf c → Counter_wf (Counter_incr t c).
Proof.
  intros [Hnd Hpos]. split.
  - rewrite Counter_incr_keys. case_bool_decide; [done|].
    apply NoDup_app. split; [done|]. split; [|apply NoDup_singleton].
    intros x Hx ->%list_elem_of_singleton. done.
  - clear Hnd. induction Hpos as [|[k n] c Hn Hpos IH]; cbn.
    + repeat constructor.
    + case_bool_decide; constructor; cbn in *; (lia || done).
Qed.

Lemma Counter_wf_elem c t q :
  Counter_wf c → (t, q) ∈ c ↔ (Counter_get c t = q ∧ (0 < q)%nat).
Proof.
  intros [Hnd Hpos]. induction c as [|[k n] c IH]; cbn.
  - split; [by intros ?%elem_of_nil | lia].
  - cbn in Hnd. apply NoDup_cons in Hnd as [Hfresh Hnd].
    apply Forall_cons in Hpos as [Hn Hpos]. cbn in Hn.
    specialize (IH Hnd Hpos). rewrite elem_of_cons.
    destruct (bool_decide_reflect (k = t)) as [->|Hkt].
    + split.
      * intros [[= ->]|Hin]; [done|]. exfalso. apply Hfresh.
        apply list_elem_of_fmap. by exists (t, q).
      * intros [-> _]. by left.
    + rewrite <- IH. split; [intros [[= -> ->]|?]; done | by right].
Qed.

Lemma Counter_fold_wf l c :
  Counter_wf c → Counter_wf (fold_left (λ c t, Counter_incr t c) l c).
Proof.
  revert c. induction l as [|t l IH]; intros c Hc; cbn; [done|].
  by apply IH, Counter_incr_wf.
Qed.

Lemma Counter_fold_get l c t :
  Counter_get (fold_left (λ c t, Counter_incr t c) l c) t
    = (count t l + Counter_get c t)%nat.
Proof.
  revert c. induction l as [|t' l IH]; intros c; cbn; [done|].
  rewrite IH, Counter_get_incr. case_bool_decide; lia.
Qed.

Lemma count_pos t l : (0 < count t l)%nat ↔ t ∈ l.
Proof.
  induction l as [|t' l IH]; cbn.
  - split; [lia | by intros ?%elem_of_nil].
  - rewrite elem_of_cons. case_bool_decide; subst.
    + split; [by left | lia].
    + rewrite IH. split; [by right | intros [->|?]; done].
Qed.

(** The items of [Counter(query)] are the query's terms, each with the
    number of times the query has it. *)
Lemma Counter_items query t q :
  (t, q) ∈ Counter query ↔ (t ∈ query ∧ q = count t query).
Proof.
  unfold Counter. rewrite Counter_wf_elem.
  - rewrite Counter_fold_get. cbn. rewrite Nat.add_0_r.
    split.
    + intros [<- Hpos]. by apply count_pos in Hpos.
    + intros [Hin ->]. by apply count_pos in Hin.
  - apply Counter_fold_wf. split; [apply NoDup_nil_2 | constructor].
Qed.

(** ** Loop bodies write only their own document's score *)

Ltac own_score_tac :=
  let H := fresh "H" in
  intros ? ? ? ? H ? ?;
  cbv beta delta [SimpleScorer_score_doc ScorerBM25_score_doc ScorerLM_score_doc
                  ScorerBM25F_score_doc ScorerMLM_score_doc] in H;
  cbn zeta in H; inv_ok;
  repeat match goal with
  | H : (let '(_, _) := ?p in _) = Ok _ |- _ => destruct p
  | H : (if ?c then _ else _) = Ok _ |- _ => destruct c
  | _ => progress inv_ok
  end; subst; first [done | by rewrite lookup_iadd_ne].

Lemma SimpleScorer_own field term query_freq :
  own_score_only (SimpleScorer_score_doc field term query_freq).
Proof. own_score_tac. Qed.

Lemma ScorerBM25_own coll idx field b k1 term query_freq :
  own_score_only (ScorerBM25_score_doc coll idx field b k1 term query_freq).
Proof. own_score_tac. Qed.

Lemma ScorerLM_own field term c_t_q lambda_ P_t_C :
  own_score_only (ScorerLM_score_doc field term c_t_q lambda_ P_t_C).
Proof. own_score_tac. Qed.

Lemma ScorerBM25F_own coll idx fields field_weights bi k1 term query_freq :
  own_score_only
    (ScorerBM25F_score_doc coll idx fields field_weights bi k1 term query_freq).
Proof. own_score_tac. Qed.

Lemma ScorerMLM_own coll fields field_weights smoothing_param term query_freq :
  own_score_only
    (ScorerMLM_score_doc coll fields field_weights smoothing_param term query_freq).
Proof. own_score_tac. Qed.

(** ** Evaluation on concrete inputs *)

(** Computes the parts of a run that involve no real number. *)
Ltac py_eval_pure :=
  repeat match goal with
  | |- context [@getitem ?V ?m ?k] =>
      let r := eval vm_compute in (@getitem V m k) in
      change (@getitem V m k) with r
  | |- context [contains ?t ?l] =>
      let r := eval vm_compute in (contains t l) in change (contains t l) with r
  | |- context [count ?t ?l] =>
      let r := eval vm_compute in (count t l) in change (count t l) with r
  | |- context [total_field_length ?c ?f] =>
      let r := eval vm_compute in (total_field_length c f) in
      change (total_field_length c f) with r
  | |- context [collection_count ?c ?f ?t] =>
      let r := eval vm_compute in (collection_count c f t) in
      change (collection_count c f t) with r
  | |- context [bool_decide ?P] =>
      let r := eval vm_compute in (bool_decide P) in
      change (bool_decide P) with r
  end.

(** Runs monadic code step by step; divisions and logarithms go through
    once their side condition is settled by [lra]. *)
Ltac py_eval :=
  repeat first
  [ progress py_eval_pure
  | progress cbn [mbind mret result_bind result_ret for_items for_enumerate
                  score_terms score_term fst snd length
                  list_getitem lookup list_lookup]
  | rewrite py_div_Ok by (simpl; lra)
  | rewrite math_log_Ok by (simpl; lra) ].

Ltac solve_NoDup := apply (bool_decide_unpack _); by vm_compute.

(** ** SimpleScorer *)

Lemma SimpleScorer_score_doc_has field term query_freq doc_id (doc : Document) f s :
  doc !! field = Some f →
  SimpleScorer_score_doc field term query_freq doc_id doc s =
    if contains term f
    then Ok (iadd s doc_id (INR (count term f * query_freq)))
    else Ok s.
Proof. intros Hf. unfold SimpleScorer_score_doc, getitem. by rewrite Hf. Qed.

Lemma SimpleScorer_total field term query_freq items s :
  Forall (has_field field) items →
  ∃ s', for_items (SimpleScorer_score_doc field term query_freq) items s = Ok s'.
Proof.
  intros Hall. revert s.
  induction Hall as [|[doc_id doc] rest [f Hf] _ IH]; intros s; cbn; [by eexists|].
  rewrite (SimpleScorer_score_doc_has _ _ _ _ _ f) by done.
  destruct (contains term f); cbn; apply IH.
Qed.

(** C4: [Counter] hands [score_term] each query term with the number of
    times the query has it; [SimpleScorer.score_term] adds
    [count × query_freq] to the score of every document whose field
    contains the term and leaves the other documents untouched; and on the
    two-document collection the query [a a] scores [{d1: 4}]. *)
Theorem SimpleScorer_term_count :
  (∀ query t q, (t, q) ∈ Counter query ↔ (t ∈ query ∧ q = count t query)) ∧
  (∀ coll field term query_freq scores,
     NoDup (doc_ids coll) →
     Forall (has_field field) coll →
     ∃ scores',
       SimpleScorer_score_term coll field term query_freq scores = Ok scores' ∧
       ∀ doc_id doc f, (doc_id, doc) ∈ coll → doc !! field = Some f →
         (term ∈ f →
            scores' !! doc_id
              = Some (score_of scores doc_id + INR (count term f * query_freq))) ∧
         (term ∉ f → scores' !! doc_id = scores !! doc_id)) ∧
  score_collection coll_two_bodies index_two_bodies (SimpleScorer "body")
    ["a"; "a"]%string = Ok {["d1"%string := 4]}.
Proof.
  split; [exact Counter_items|]. split.
  - intros coll field term query_freq scores Hnd Hall.
    destruct (SimpleScorer_total field term query_freq coll scores Hall)
      as [scores' Hrun].
    exists scores'. split; [done|].
    intros doc_id doc f Hin Hf.
    destruct (for_items_at _ _ _ _ _ _ (SimpleScorer_own _ _ _) Hnd Hin Hrun)
      as (s1 & s2 & Hbody & Hs1 & Hs2).
    unfold SimpleScorer_score_doc, getitem in Hbody. rewrite Hf in Hbody.
    cbn in Hbody. split; intros Ht.
    + apply contains_true in Ht. rewrite Ht in Hbody. injection Hbody as <-.
      rewrite Hs2, lookup_iadd_eq. by rewrite (score_of_lookup_eq _ _ _ Hs1).
    + apply contains_false in Ht. rewrite Ht in Hbody. injection Hbody as <-.
      by rewrite Hs2.
  - unfold score_collection.
    change (Counter _) with [("a"%string, 2%nat)].
    unfold coll_two_bodies. cbn [score_terms score_term].
    unfold SimpleScorer_score_term, SimpleScorer_score_doc. py_eval.
    unfold iadd. rewrite score_of_empty.
    replace (0 + INR (2 * 2)) with 4 by (simpl; lra). reflexivity.
Qed.

Lemma SimpleScorer_term_count_witness :
  ∃ scores',
    SimpleScorer_score_term coll_two_bodies "body" "a" 2 ∅ = Ok scores' ∧
    scores' !! "d1"%string = Some (score_of ∅ "d1" + INR (2 * 2)) ∧
    scores' !! "d2"%string = None.
Proof.
  destruct (proj1 (proj2 SimpleScorer_term_count)
              coll_two_bodies "body"%string "a"%string 2%nat ∅)
    as (scores' & Hrun & Hdocs).
  - solve_NoDup.
  - repeat constructor; eexists; reflexivity.
  - exists scores'. split; [exact Hrun|]. split.
    + apply (proj1 (Hdocs "d1"%string {["body"%string := ["a"; "b"; "a"]%string]}
                      ["a"; "b"; "a"]%string
                      ltac:(apply elem_of_cons; by left) eq_refl)).
      apply elem_of_cons. by left.
    + apply (proj2 (Hdocs "d2"%string {["body"%string := ["b"; "b"]%string]}
                      ["b"; "b"]%string
                      ltac:(apply elem_of_cons; right; apply elem_of_cons; by left)
                      eq_refl)).
      apply (bool_decide_unpack _). by vm_compute.
Defined.

(** ** ScorerBM25 *)

(** C1: when [ScorerBM25.score_term] returns, the score of every document
    whose field contains the term has grown by
    [(tf × (1 + k1) / (tf + k1 × (1 − b + b × (len / avg)))) × ln (N / df)],
    with [df] the length of the posting list the index holds for the term;
    and the query frequency plays no part. *)
Theorem ScorerBM25_contribution
    (coll : DocumentCollection) (idx : Index) (field : string) (b k1 : R)
    (term : string) :
  (∀ query_freq query_freq' scores,
     ScorerBM25_score_term coll idx field b k1 term query_freq scores
     = ScorerBM25_score_term coll idx field b k1 term query_freq' scores) ∧
  (∀ query_freq scores scores',
     NoDup (doc_ids coll) →
     ScorerBM25_score_term coll idx field b k1 term query_freq scores = Ok scores' →
     ∀ doc_id doc f, (doc_id, doc) ∈ coll → doc !! field = Some f → term ∈ f →
       ∃ by_term postings avg,
         idx !! field = Some by_term ∧ by_term !! term = Some postings ∧
         avg_field_length coll field = Ok avg ∧
         let tf := INR (count term f) in
         scores' !! doc_id = Some (score_of scores doc_id +
           (tf * (1 + k1) / (tf + k1 * (1 - b + b * (INR (length f) / avg))))
           * ln (INR (length coll) / INR (length postings)))).
Proof.
  split; [reflexivity|].
  intros query_freq scores scores' Hnd Hrun doc_id doc f Hin Hf Ht.
  destruct (for_items_at _ _ _ _ _ _ (ScorerBM25_own _ _ _ _ _ _ _) Hnd Hin Hrun)
    as (s1 & s2 & Hbody & Hs1 & Hs2).
  unfold ScorerBM25_score_doc, getitem in Hbody. rewrite Hf in Hbody.
  cbn in Hbody. apply contains_true in Ht. rewrite Ht in Hbody.
  apply bind_Ok_inv in Hbody as (idf & Hidf & Hbody).
  apply bind_Ok_inv in Hbody as (avg & Havg & Hbody).
  apply bind_Ok_inv in Hbody as (norm & Hnorm & Hbody).
  apply bind_Ok_inv in Hbody as (frac & Hfrac & Hbody). injection Hbody as <-.
  unfold idf_of in Hidf.
  apply bind_Ok_inv in Hidf as (by_term & Hfield & Hidf).
  apply bind_Ok_inv in Hidf as (postings & Hterm & Hidf).
  apply bind_Ok_inv in Hidf as (ratio & Hratio & Hidf).
  apply getitem_Ok in Hfield. apply getitem_Ok in Hterm.
  apply py_div_Ok_inv in Hratio as [_ ->].
  apply math_log_Ok_inv in Hidf as [_ ->].
  apply py_div_Ok_inv in Hnorm as [_ ->].
  apply py_div_Ok_inv in Hfrac as [_ ->].
  exists by_term, postings, avg. do 3 (split; [done|]).
  cbn zeta. rewrite Hs2, lookup_iadd_eq, (score_of_lookup_eq _ _ _ Hs1).
  do 3 f_equal. unfold Rdiv. do 4 f_equal. ring.
Qed.

Lemma ScorerBM25_contribution_witness :
  ∃ scores' (postings : list string) avg,
    ScorerBM25_score_term coll_two_bodies index_two_bodies "body" 0.75 1.2 "a" 2 ∅
      = Ok scores' ∧
    avg_field_length coll_two_bodies "body" = Ok avg ∧
    scores' !! "d1"%string = Some (score_of ∅ "d1" +
      (INR 2 * (1 + 1.2) / (INR 2 + 1.2 * (1 - 0.75 + 0.75 * (INR 3 / avg))))
      * ln (INR 2 / INR (length postings))).
Proof.
  assert (∃ scores', ScorerBM25_score_term coll_two_bodies index_two_bodies
            "body" 0.75 1.2 "a" 2 ∅ = Ok scores') as [scores' Hrun].
  { unfold coll_two_bodies, index_two_bodies.
    unfold ScorerBM25_score_term, ScorerBM25_score_doc, idf_of, avg_field_length.
    py_eval. eexists. reflexivity. }
  destruct (proj2 (ScorerBM25_contribution coll_two_bodies index_two_bodies
                     "body" 0.75 1.2 "a") 2%nat ∅ scores'
              ltac:(solve_NoDup) Hrun
              "d1"%string {["body"%string := ["a"; "b"; "a"]%string]}
              ["a"; "b"; "a"]%string
              ltac:(apply elem_of_cons; by left) eq_refl
              ltac:(apply elem_of_cons; by left))
    as (by_term & postings & avg & _ & _ & Havg & Hscore).
  exists scores', postings, avg. split; [exact Hrun|]. split; [exact Havg|].
  exact Hscore.
Defined.

(** ** Scoring as accumulation *)

Lemma apply_deltas_app ds1 ds2 s :
  apply_deltas (ds1 ++ ds2) s = apply_deltas ds2 (apply_deltas ds1 s).
Proof.
  revert s. induction ds1 as [|[d x] ds1 IH]; intros s; cbn; [done | apply IH].
Qed.

Lemma score_of_apply_deltas ds s d :
  score_of (apply_deltas ds s) d = score_of s d + delta_sum ds d.
Proof.
  revert s. induction ds as [|[d' x] ds IH]; intros s; cbn; [lra|].
  rewrite IH. case_bool_decide as Hd.
  - subst. rewrite score_of_iadd_eq. lra.
  - rewrite score_of_iadd_ne by done. lra.
Qed.

Lemma accumulates_seq (run1 run2 : Scores → result Scores) :
  accumulates run1 → accumulates run2 →
  accumulates (λ s, s' ← run1 s; run2 s').
Proof.
  intros [[e1 H1]|[ds1 H1]] H2.
  - left. exists e1. intros s. by rewrite H1.
  - destruct H2 as [[e2 H2]|[ds2 H2]].
    + left. exists e2. intros s. rewrite H1. cbn. apply H2.
    + right. exists (ds1 ++ ds2). intros s. rewrite H1. cbn.
      by rewrite H2, apply_deltas_app.
Qed.

Lemma accumulates_for_items body items :
  (∀ doc_id doc, accumulates (body doc_id doc)) →
  accumulates (for_items body items).
Proof.
  intros Hbody. induction items as [|[doc_id doc] rest IH].
  - right. by exists [].
  - apply (accumulates_seq (body doc_id doc) (for_items body rest)); auto.
Qed.

Ltac accumulates_tac :=
  intros; unfold accumulates;
  cbv beta delta [SimpleScorer_score_doc ScorerBM25_score_doc ScorerLM_score_doc
                  ScorerBM25F_score_doc ScorerMLM_score_doc];
  cbn zeta;
  repeat match goal with
  | |- context [mbind _ ?m] =>
      destruct m as [?|?] eqn:?; cbn [mbind result_bind]
  | |- context [if ?c then _ else _] => destruct c
  | |- context [let '(_, _) := ?p in _] => destruct p
  end;
  first [ left; eexists; intros; reflexivity
        | right; exists []; intros; reflexivity
        | right; eexists [(_, _)]; intros; reflexivity ].

Lemma SimpleScorer_accumulates field term query_freq doc_id doc :
  accumulates (SimpleScorer_score_doc field term query_freq doc_id doc).
Proof. accumulates_tac. Qed.

Lemma ScorerBM25_accumulates coll idx field b k1 term query_freq doc_id doc :
  accumulates (ScorerBM25_score_doc coll idx field b k1 term query_freq doc_id doc).
Proof. accumulates_tac. Qed.

Lemma ScorerLM_accumulates field term c_t_q lambda_ P_t_C doc_id doc :
  accumulates (ScorerLM_score_doc field term c_t_q lambda_ P_t_C doc_id doc).
Proof. accumulates_tac. Qed.

Lemma ScorerBM25F_accumulates coll idx fields field_weights bi k1 term query_freq
    doc_id doc :
  accumulates
    (ScorerBM25F_score_doc coll idx fields field_weights bi k1 term query_freq
       doc_id doc).
Proof. accumulates_tac. Qed.

Lemma ScorerMLM_accumulates coll fields field_weights smoothing_param term
    query_freq doc_id doc :
  accumulates
    (ScorerMLM_score_doc coll fields field_weights smoothing_param term query_freq
       doc_id doc).
Proof. accumulates_tac. Qed.

Lemma score_term_accumulates coll idx self term query_freq :
  accumulates (score_term coll idx self term query_freq).
Proof.
  destruct self; cbn [score_term].
  - apply accumulates_for_items, SimpleScorer_accumulates.
  - apply accumulates_for_items, ScorerBM25_accumulates.
  - unfold ScorerLM_score_term. cbn zeta.
    destruct (collection_count coll field term) as [occurrences|e]; cbn;
      [|left; by exists e].
    destruct (total_field_length coll field) as [total|e]; cbn;
      [|left; by exists e].
    destruct (py_div (INR occurrences) (INR total)) as [P_t_C|e]; cbn;
      [|left; by exists e].
    apply accumulates_for_items, ScorerLM_accumulates.
  - apply accumulates_for_items, ScorerBM25F_accumulates.
  - apply accumulates_for_items, ScorerMLM_accumulates.
Qed.

(** A successful [score_term] succeeds from any accumulator and adds the
    same amounts. *)
Lemma score_term_shift coll idx self term query_freq s0 s0' s :
  score_term coll idx self term query_freq s0 = Ok s0' →
  ∃ s', score_term coll idx self term query_freq s = Ok s' ∧
    ∀ d, score_of s' d = score_of s d + (score_of s0' d - score_of s0 d).
Proof.
  intros Hrun.
  destruct (score_term_accumulates coll idx self term query_freq)
    as [[e He]|[ds Hds]].
  - rewrite He in Hrun. discriminate.
  - rewrite Hds in Hrun. injection Hrun as <-.
    exists (apply_deltas ds s). split; [apply Hds|].
    intros d. rewrite !score_of_apply_deltas. lra.
Qed.

Lemma Counter_two_distinct t1 t2 :
  t1 ≠ t2 → Counter [t1; t2] = [(t1, 1%nat); (t2, 1%nat)].
Proof. intros Hne. unfold Counter. cbn. by rewrite bool_decide_eq_false_2. Qed.

(** C9: for each scorer and distinct terms [t1], [t2], if the two
    one-term queries are scored then so is the query [t1 t2], and each
    document's score is the sum of its two one-term scores; and the
    two-term query is scored only if both one-term queries are. *)
Theorem score_collection_additive
    (coll : DocumentCollection) (idx : Index) (self : Scorer) (t1 t2 : string) :
  t1 ≠ t2 →
  (∀ s1 s2,
     score_collection coll idx self [t1] = Ok s1 →
     score_collection coll idx self [t2] = Ok s2 →
     ∃ s12, score_collection coll idx self [t1; t2] = Ok s12 ∧
       ∀ d, score_of s12 d = score_of s1 d + score_of s2 d) ∧
  (∀ s12,
     score_collection coll idx self [t1; t2] = Ok s12 →
     ∃ s1 s2, score_collection coll idx self [t1] = Ok s1 ∧
       score_collection coll idx self [t2] = Ok s2).
Proof.
  intros Hne. unfold score_collection. rewrite (Counter_two_distinct _ _ Hne).
  change (Counter [t1]) with [(t1, 1%nat)].
  change (Counter [t2]) with [(t2, 1%nat)].
  cbn [score_terms]. split.
  - intros s1 s2 H1 H2.
    destruct (score_term coll idx self t1 1 ∅) as [r1|] eqn:E1;
      cbn in H1; [|discriminate]. injection H1 as ->.
    destruct (score_term coll idx self t2 1 ∅) as [r2|] eqn:E2;
      cbn in H2; [|discriminate]. injection H2 as ->.
    destruct (score_term_shift _ _ _ _ _ _ _ s1 E2) as (s12 & Hrun & Hsum).
    exists s12. cbn. rewrite Hrun. split; [done|].
    intros d. rewrite Hsum, score_of_empty. lra.
  - intros s12 H12.
    destruct (score_term coll idx self t1 1 ∅) as [r1|] eqn:E1;
      cbn in H12; [|discriminate].
    destruct (score_term coll idx self t2 1 r1) as [r2|] eqn:E2;
      cbn in H12; [|discriminate].
    destruct (score_term_shift _ _ _ _ _ _ _ ∅ E2) as (s2 & Hrun & _).
    exists r1, s2. by rewrite Hrun.
Qed.

Lemma score_collection_additive_witness :
  ∃ s1 s2 s12,
    score_collection coll_two_bodies index_two_bodies (SimpleScorer "body")
      ["a"%string] = Ok s1 ∧
    score_collection coll_two_bodies index_two_bodies (SimpleScorer "body")
      ["b"%string] = Ok s2 ∧
    score_collection coll_two_bodies index_two_bodies (SimpleScorer "body")
      ["a"; "b"]%string = Ok s12 ∧
    ∀ d, score_of s12 d = score_of s1 d + score_of s2 d.
Proof.
  assert (∃ s1, score_collection coll_two_bodies index_two_bodies
            (SimpleScorer "body") ["a"%string] = Ok s1) as [s1 H1].
  { unfold score_collection. change (Counter _) with [("a"%string, 1%nat)].
    unfold coll_two_bodies. cbn [score_terms score_term].
    unfold SimpleScorer_score_term, SimpleScorer_score_doc. py_eval.
    eexists. reflexivity. }
  assert (∃ s2, score_collection coll_two_bodies index_two_bodies
            (SimpleScorer "body") ["b"%string] = Ok s2) as [s2 H2].
  { unfold score_collection. change (Counter _) with [("b"%string, 1%nat)].
    unfold coll_two_bodies. cbn [score_terms score_term].
    unfold SimpleScorer_score_term, SimpleScorer_score_doc. py_eval.
    eexists. reflexivity. }
  destruct (proj1 (score_collection_additive coll_two_bodies index_two_bodies
                     (SimpleScorer "body") "a" "b" ltac:(discriminate))
              s1 s2 H1 H2) as (s12 & H12 & Hsum).
  exists s1, s2, s12. done.
Defined.

(** ** ScorerBM25F against ScorerBM25 *)

Lemma count_zero t l : t ∉ l → count t l = 0%nat.
Proof.
  intros Hnin. destruct (count t l) eqn:E; [done|].
  exfalso. apply Hnin, count_pos. lia.
Qed.

Lemma scaled_iadd k sF sB d x y :
  scaled k sF sB → y = k * x → scaled k (iadd sF d x) (iadd sB d y).
Proof.
  intros H -> d'. destruct (decide (d = d')) as [->|Hne].
  - rewrite !score_of_iadd_eq, H. lra.
  - rewrite !score_of_iadd_ne by done. apply H.
Qed.

Lemma scaled_iadd_zero k sF sB d :
  scaled k sF sB → scaled k (iadd sF d 0) sB.
Proof.
  intros H d'. destruct (decide (d = d')) as [->|Hne].
  - rewrite score_of_iadd_eq, H. lra.
  - rewrite score_of_iadd_ne by done. apply H.
Qed.

Lemma ScorerBM25F_single_doc coll idx b k1 term query_freq doc_id doc sF sF' sB sB' :
  ScorerBM25F_score_doc coll idx ["body"%string] [1] [b] k1 term query_freq
    doc_id doc sF = Ok sF' →
  ScorerBM25_score_doc coll idx "body" b k1 term query_freq doc_id doc sB = Ok sB' →
  scaled (1 + k1) sF sB → scaled (1 + k1) sF' sB'.
Proof.
  intros HF HB Hinv.
  unfold ScorerBM25F_score_doc in HF. cbn [for_enumerate] in HF.
  unfold ScorerBM25F_score_field in HF. cbn -[idf_of] in HF.
  apply bind_Ok_inv in HF as ([c_t_d idf] & Hfields & HF).
  apply bind_Ok_inv in Hfields as ([c idf'] & Hfield & Hret).
  injection Hret as -> ->.
  apply bind_Ok_inv in Hfield as (f & Hf & Hfield).
  apply bind_Ok_inv in Hfield as (avg & Havg & Hfield).
  apply bind_Ok_inv in Hfield as (norm & Hnorm & Hfield).
  apply bind_Ok_inv in Hfield as (frac & Hfrac & Hfield).
  apply bind_Ok_inv in Hfield as (idf0 & Hidf & Hret).
  injection Hret as <- <-.
  apply bind_Ok_inv in HF as (frac2 & Hfrac2 & HF). injection HF as <-.
  unfold ScorerBM25_score_doc in HB. rewrite Hf in HB. cbn [mbind result_bind] in HB.
  apply py_div_Ok_inv in Hnorm as [Havg0 ->].
  apply py_div_Ok_inv in Hfrac as [HB0 ->].
  apply py_div_Ok_inv in Hfrac2 as [Hden ->].
  destruct (contains term f) eqn:Ht.
  - rewrite Hidf, Havg in HB. cbn [mbind result_bind] in HB.
    rewrite (py_div_Ok _ _ Havg0) in HB. cbn [mbind result_bind] in HB.
    apply bind_Ok_inv in HB as (fracB & HfracB & HB). injection HB as <-.
    apply py_div_Ok_inv in HfracB as [HdenB ->].
    apply scaled_iadd; [done|].
    set (tf := INR (count term f)) in *.
    set (B := 1 - b + b * INR (length f) / avg) in *.
    assert (k1 * B + tf ≠ 0).
    { intros H0. apply HdenB. lra. }
    field. by split.
  - injection HB as <-. apply contains_false, count_zero in Ht. rewrite Ht.
    cbn [INR].
    replace ((0 + 1 * (0 / _)) / _ * _) with 0; [by apply scaled_iadd_zero|].
    unfold Rdiv. ring.
Qed.

Lemma ScorerBM25F_single_items coll idx b k1 term query_freq items sF sF' sB sB' :
  for_items (ScorerBM25F_score_doc coll idx ["body"%string] [1] [b] k1 term query_freq)
    items sF = Ok sF' →
  for_items (ScorerBM25_score_doc coll idx "body" b k1 term query_freq)
    items sB = Ok sB' →
  scaled (1 + k1) sF sB → scaled (1 + k1) sF' sB'.
Proof.
  revert sF sB. induction items as [|[doc_id doc] rest IH]; intros sF sB HF HB Hinv.
  - cbn in *. by injection HF as <-; injection HB as <-.
  - cbn [for_items] in HF, HB.
    apply bind_Ok_inv in HF as (sF1 & HF1 & HF).
    apply bind_Ok_inv in HB as (sB1 & HB1 & HB).
    eapply IH; [done..|]. by eapply ScorerBM25F_single_doc.
Qed.

Lemma ScorerBM25F_single_terms coll idx b k1 freqs sF sF' sB sB' :
  score_terms coll idx (ScorerBM25F ["body"%string] [1] [b] k1) freqs sF = Ok sF' →
  score_terms coll idx (ScorerBM25 "body" b k1) freqs sB = Ok sB' →
  scaled (1 + k1) sF sB → scaled (1 + k1) sF' sB'.
Proof.
  revert sF sB. induction freqs as [|[term query_freq] rest IH]; intros sF sB HF HB Hinv.
  - cbn in *. by injection HF as <-; injection HB as <-.
  - cbn [score_terms] in HF, HB.
    apply bind_Ok_inv in HF as (sF1 & HF1 & HF).
    apply bind_Ok_inv in HB as (sB1 & HB1 & HB).
    eapply IH; [done..|]. by eapply ScorerBM25F_single_items.
Qed.

(** C2, as the code has it: whenever both scorers return, each document's
    [ScorerBM25] score is [1 + k1] times its score under [ScorerBM25F]
    with the single field [body], weight 1 and the same [b] and [k1]
    (absent documents count as 0). *)
Theorem ScorerBM25F_single_field_scaled
    (coll : DocumentCollection) (idx : Index) (b k1 : R) (query : list string)
    (sF sB : Scores) :
  score_collection coll idx (ScorerBM25F ["body"%string] [1] [b] k1) query = Ok sF →
  score_collection coll idx (ScorerBM25 "body" b k1) query = Ok sB →
  ∀ d, score_of sB d = (1 + k1) * score_of sF d.
Proof.
  intros HF HB. eapply ScorerBM25F_single_terms; [exact HF | exact HB |].
  intros d. rewrite score_of_empty. lra.
Qed.


Lemma ScorerBM25F_single_field_scaled_witness :
  ∃ sF sB,
    score_collection coll_two_bodies index_two_bodies
      (ScorerBM25F ["body"%string] [1] [0.75] 1.2) ["a"; "b"]%string = Ok sF ∧
    score_collection coll_two_bodies index_two_bodies
      (ScorerBM25 "body" 0.75 1.2) ["a"; "b"]%string = Ok sB ∧
    score_of sB "d1" = (1 + 1.2) * score_of sF "d1".
Proof.
  assert (∃ sF, score_collection coll_two_bodies index_two_bodies
            (ScorerBM25F ["body"%string] [1] [0.75] 1.2) ["a"; "b"]%string = Ok sF)
    as [sF HF].
  { unfold score_collection.
    change (Counter _) with [("a"%string, 1%nat); ("b"%string, 1%nat)].
    unfold coll_two_bodies, index_two_bodies. cbn [score_terms score_term].
    unfold ScorerBM25F_score_term, ScorerBM25F_score_doc, ScorerBM25F_score_field,
      idf_of, avg_field_length.
    py_eval. eexists. reflexivity. }
  assert (∃ sB, score_collection coll_two_bodies index_two_bodies
            (ScorerBM25 "body" 0.75 1.2) ["a"; "b"]%string = Ok sB)
    as [sB HB].
  { unfold score_collection.
    change (Counter _) with [("a"%string, 1%nat); ("b"%string, 1%nat)].
    unfold coll_two_bodies, index_two_bodies. cbn [score_terms score_term].
    unfold ScorerBM25_score_term, ScorerBM25_score_doc, idf_of, avg_field_length.
    py_eval. eexists. reflexivity. }
  exists sF, sB. split; [exact HF|]. split; [exact HB|].
  exact (ScorerBM25F_single_field_scaled coll_two_bodies index_two_bodies
           0.75 1.2 ["a"; "b"]%string sF sB HF HB "d1"%string).
Defined.

(** C2 as worded fails: on the scenario's collection, with the default
    [b] and [k1], the two scorers give [d1] different scores for the
    query [a]. *)
Lemma BM25F_single_field_differs_from_BM25 :
  ∃ sF sB,
    score_collection coll_two_bodies index_two_bodies
      (ScorerBM25F ["body"%string] [1] [0.75] 1.2) ["a"%string] = Ok sF ∧
    score_collection coll_two_bodies index_two_bodies
      (ScorerBM25 "body" 0.75 1.2) ["a"%string] = Ok sB ∧
    score_of sF "d1" ≠ score_of sB "d1".
Proof.
  eexists _, _. split; [|split].
  - unfold score_collection. change (Counter _) with [("a"%string, 1%nat)].
    unfold coll_two_bodies, index_two_bodies. cbn [score_terms score_term].
    unfold ScorerBM25F_score_term, ScorerBM25F_score_doc, ScorerBM25F_score_field,
      idf_of, avg_field_length.
    py_eval. reflexivity.
  - unfold score_collection. change (Counter _) with [("a"%string, 1%nat)].
    unfold coll_two_bodies, index_two_bodies. cbn [score_terms score_term].
    unfold ScorerBM25_score_term, ScorerBM25_score_doc, idf_of, avg_field_length.
    py_eval. reflexivity.
  - rewrite score_of_iadd_ne by discriminate.
    rewrite !score_of_iadd_eq, score_of_empty.
    pose proof ln_lt_2 as Hln. 
    replace (INR 2 / INR 1) with 2 by (simpl; lra).
    simpl INR. lra.
Qed.

(** ** ScorerMLM against ScorerLM *)

Lemma Counter_incr_fresh t c : t ∉ c.*1 → Counter_incr t c = c ++ [(t, 1%nat)].
Proof.
  induction c as [|[k n] c IH]; cbn; [done|].
  intros [Hne Hnin]%not_elem_of_cons.
  rewrite bool_decide_eq_false_2 by done. by rewrite IH.
Qed.

Lemma Counter_fold_NoDup l c :
  NoDup l → (∀ t, t ∈ l → t ∉ c.*1) →
  fold_left (λ c t, Counter_incr t c) l c = c ++ ((λ t, (t, 1%nat)) <$> l).
Proof.
  revert c. induction l as [|t l IH]; intros c Hnd Hfresh; cbn.
  - by rewrite app_nil_r.
  - apply NoDup_cons in Hnd as [Ht Hnd].
    rewrite Counter_incr_fresh by (apply Hfresh; by left).
    rewrite IH; [by rewrite <- app_assoc | done |].
    intros t' Ht'. rewrite fmap_app. cbn. rewrite elem_of_app, list_elem_of_singleton.
    intros [Hin| ->]; [|done]. eapply Hfresh; [|done]. by right.
Qed.

Lemma Counter_NoDup query :
  NoDup query → Counter query = (λ t, (t, 1%nat)) <$> query.
Proof.
  intros Hnd. unfold Counter. rewrite Counter_fold_NoDup; [done..|].
  intros t _ Hin. by apply elem_of_nil in Hin.
Qed.

Lemma ScorerMLM_single_term coll idx lambda_ term sM sM' sL sL' doc_id (doc : Document) f :
  NoDup (doc_ids coll) → (doc_id, doc) ∈ coll →
  doc !! "body"%string = Some f → term ∈ f →
  score_term coll idx (ScorerMLM ["body"%string] [1] lambda_) term 1 sM = Ok sM' →
  score_term coll idx (ScorerLM "body" lambda_) term 1 sL = Ok sL' →
  score_of sL doc_id = score_of sM doc_id →
  score_of sL' doc_id = score_of sM' doc_id.
Proof.
  intros Hnd Hin Hf Ht HM HL Hinv. cbn [score_term] in HM, HL.
  unfold ScorerLM_score_term in HL. cbn zeta in HL.
  apply bind_Ok_inv in HL as (occurrences & Hocc & HL).
  apply bind_Ok_inv in HL as (total & Htotal & HL).
  apply bind_Ok_inv in HL as (P_t_C & HP & HL).
  apply py_div_Ok_inv in HP as [Htotal0 ->].
  destruct (for_items_at _ _ _ _ _ _ (ScorerLM_own _ _ _ _ _) Hnd Hin HL)
    as (l1 & l2 & HLdoc & Hl1 & Hl2).
  destruct (for_items_at _ _ _ _ _ _ (ScorerMLM_own _ _ _ _ _ _) Hnd Hin HM)
    as (m1 & m2 & HMdoc & Hm1 & Hm2).
  unfold ScorerLM_score_doc, getitem in HLdoc. rewrite Hf in HLdoc.
  cbn [mbind result_bind] in HLdoc.
  apply contains_true in Ht. rewrite Ht in HLdoc.
  apply bind_Ok_inv in HLdoc as (p & Hp & HLdoc).
  apply bind_Ok_inv in HLdoc as (l & Hl & HLdoc). injection HLdoc as <-.
  apply py_div_Ok_inv in Hp as [Hlen0 ->].
  apply math_log_Ok_inv in Hl as [_ ->].
  unfold ScorerMLM_score_doc in HMdoc. cbn [for_enumerate] in HMdoc.
  unfold ScorerMLM_score_field, getitem in HMdoc. rewrite Hf in HMdoc.
  cbn in HMdoc. rewrite (py_div_Ok _ _ Hlen0), Hocc, Htotal in HMdoc.
  cbn in HMdoc. rewrite (py_div_Ok _ _ Htotal0) in HMdoc. cbn in HMdoc.
  apply bind_Ok_inv in HMdoc as (l' & Hl' & HMdoc). injection HMdoc as <-.
  apply math_log_Ok_inv in Hl' as [_ ->].
  rewrite (score_of_lookup_eq _ _ _ Hl2), (score_of_lookup_eq _ _ _ Hm2).
  rewrite !score_of_iadd_eq.
  rewrite (score_of_lookup_eq _ _ _ Hl1), (score_of_lookup_eq _ _ _ Hm1), Hinv.
  cbn [INR]. rewrite Rmult_1_l. do 2 f_equal. ring.
Qed.

Lemma ScorerMLM_single_terms coll idx lambda_ query sM sM' sL sL' doc_id (doc : Document) f :
  NoDup (doc_ids coll) → (doc_id, doc) ∈ coll →
  doc !! "body"%string = Some f → (∀ t, t ∈ query → t ∈ f) →
  score_terms coll idx (ScorerMLM ["body"%string] [1] lambda_)
    ((λ t, (t, 1%nat)) <$> query) sM = Ok sM' →
  score_terms coll idx (ScorerLM "body" lambda_)
    ((λ t, (t, 1%nat)) <$> query) sL = Ok sL' →
  score_of sL doc_id = score_of sM doc_id →
  score_of sL' doc_id = score_of sM' doc_id.
Proof.
  intros Hnd Hin Hf. revert sM sL.
  induction query as [|t query IH]; intros sM sL Hall HM HL Hinv.
  - cbn in *. by injection HM as <-; injection HL as <-.
  - cbn [fmap list_fmap score_terms] in HM, HL.
    apply bind_Ok_inv in HM as (sM1 & HM1 & HM).
    apply bind_Ok_inv in HL as (sL1 & HL1 & HL).
    eapply IH; [|exact HM|exact HL|].
    + intros t' Ht'. apply Hall. by right.
    + eapply ScorerMLM_single_term; [done..| |exact HM1|exact HL1|done].
      apply Hall. by left.
Qed.

(** C3, as the code has it: for a query without repeated terms, whenever
    both scorers return, [ScorerMLM] with the single field [body] and
    weight 1 and [ScorerLM] on [body] with the same smoothing parameter
    give the same score to every document whose body contains every query
    term. *)
Theorem ScorerMLM_single_field_agrees
    (coll : DocumentCollection) (idx : Index) (lambda_ : R) (query : list string)
    (sM sL : Scores) :
  NoDup (doc_ids coll) →
  NoDup query →
  score_collection coll idx (ScorerMLM ["body"%string] [1] lambda_) query = Ok sM →
  score_collection coll idx (ScorerLM "body" lambda_) query = Ok sL →
  ∀ doc_id (doc : Document) f,
    (doc_id, doc) ∈ coll → doc !! "body"%string = Some f →
    (∀ t, t ∈ query → t ∈ f) →
    score_of sL doc_id = score_of sM doc_id.
Proof.
  intros Hndc Hndq HM HL doc_id doc f Hin Hf Hall.
  unfold score_collection in HM, HL. rewrite (Counter_NoDup _ Hndq) in HM, HL.
  by eapply ScorerMLM_single_terms.
Qed.

Lemma ScorerMLM_single_field_agrees_witness :
  ∃ sM sL,
    score_collection coll_two_bodies index_two_bodies
      (ScorerMLM ["body"%string] [1] 0.1) ["a"; "b"]%string = Ok sM ∧
    score_collection coll_two_bodies index_two_bodies
      (ScorerLM "body" 0.1) ["a"; "b"]%string = Ok sL ∧
    score_of sL "d1" = score_of sM "d1".
Proof.
  assert (∃ sM, score_collection coll_two_bodies index_two_bodies
            (ScorerMLM ["body"%string] [1] 0.1) ["a"; "b"]%string = Ok sM)
    as [sM HM].
  { unfold score_collection.
    change (Counter _) with [("a"%string, 1%nat); ("b"%string, 1%nat)].
    unfold coll_two_bodies. cbn [score_terms score_term].
    unfold ScorerMLM_score_term, ScorerMLM_score_doc, ScorerMLM_score_field.
    py_eval. eexists. reflexivity. }
  assert (∃ sL, score_collection coll_two_bodies index_two_bodies
            (ScorerLM "body" 0.1) ["a"; "b"]%string = Ok sL)
    as [sL HL].
  { unfold score_collection.
    change (Counter _) with [("a"%string, 1%nat); ("b"%string, 1%nat)].
    unfold coll_two_bodies. cbn [score_terms score_term].
    unfold ScorerLM_score_term, ScorerLM_score_doc.
    py_eval. eexists. reflexivity. }
  exists sM, sL. split; [exact HM|]. split; [exact HL|].
  apply (ScorerMLM_single_field_agrees coll_two_bodies index_two_bodies 0.1
           ["a"; "b"]%string sM sL ltac:(solve_NoDup) ltac:(solve_NoDup) HM HL
           "d1"%string {["body"%string := ["a"; "b"; "a"]%string]}
           ["a"; "b"; "a"]%string ltac:(apply elem_of_cons; by left) eq_refl).
  intros t Ht. apply (bool_decide_unpack _).
  apply elem_of_cons in Ht as [->|Ht]; [by vm_compute|].
  apply list_elem_of_singleton in Ht as ->. by vm_compute.
Defined.

(** C3 as worded fails: [d2] does not contain the query term [a];
    [ScorerLM] leaves it out of the mapping, [ScorerMLM] gives it the
    logarithm of the smoothed collection probability, which is not 0. *)
Lemma MLM_single_field_differs_from_LM :
  ∃ sM sL,
    score_collection coll_two_bodies index_two_bodies
      (ScorerMLM ["body"%string] [1] 0.1) ["a"%string] = Ok sM ∧
    score_collection coll_two_bodies index_two_bodies
      (ScorerLM "body" 0.1) ["a"%string] = Ok sL ∧
    sL !! "d2"%string = None ∧
    score_of sM "d2" ≠ score_of sL "d2".
Proof.
  eexists _, _. split; [|split; [|split]].
  - unfold score_collection. change (Counter _) with [("a"%string, 1%nat)].
    unfold coll_two_bodies. cbn [score_terms score_term].
    unfold ScorerMLM_score_term, ScorerMLM_score_doc, ScorerMLM_score_field.
    py_eval. reflexivity.
  - unfold score_collection. change (Counter _) with [("a"%string, 1%nat)].
    unfold coll_two_bodies. cbn [score_terms score_term].
    unfold ScorerLM_score_term, ScorerLM_score_doc.
    py_eval. reflexivity.
  - rewrite lookup_iadd_ne by discriminate. apply lookup_empty.
  - rewrite score_of_iadd_eq, !score_of_iadd_ne, score_of_empty by discriminate.
    match goal with |- 0 + ln ?x ≠ 0 =>
      assert (ln x < ln 1) as Hneg by (apply ln_increasing; simpl; lra)
    end.
    rewrite ln_1 in Hneg. lra.
Qed.

(** ** ScorerBM25F and documents without a field *)

Lemma avg_field_length_lacks coll field :
  Exists (lacks_field field) coll → avg_field_length coll field = Raise KeyError.
Proof.
  intros Hlack. unfold avg_field_length.
  by rewrite (total_field_length_lacks _ _ Hlack).
Qed.

Lemma ScorerBM25F_score_field_avg coll idx field_weights bi term doc i field acc acc' :
  ScorerBM25F_score_field coll idx field_weights bi term doc i field acc = Ok acc' →
  is_Some (doc !! field) ∧ ∃ avg, avg_field_length coll field = Ok avg.
Proof.
  unfold ScorerBM25F_score_field. destruct acc as [c_t_d idf]. intros H.
  apply bind_Ok_inv in H as (b_i & _ & H).
  apply bind_Ok_inv in H as (f & Hf & H). apply getitem_Ok in Hf.
  apply bind_Ok_inv in H as (avg & Havg & _).
  split; [by exists f | by exists avg].
Qed.

Lemma ScorerBM25F_fields_lacking coll idx field_weights bi term doc fields i acc field :
  field ∈ fields →
  Exists (lacks_field field) coll →
  ∃ e, for_enumerate (ScorerBM25F_score_field coll idx field_weights bi term doc)
         i fields acc = Raise e.
Proof.
  intros Hin Hlack. revert i acc.
  induction fields as [|field0 rest IH]; intros i acc.
  - by apply elem_of_nil in Hin.
  - cbn [for_enumerate].
    destruct (ScorerBM25F_score_field coll idx field_weights bi term doc i field0 acc)
      as [acc'|e] eqn:Hstep; cbn [mbind result_bind]; [|by exists e].
    apply elem_of_cons in Hin as [->|Hin]; [|by apply IH].
    apply ScorerBM25F_score_field_avg in Hstep as [_ [avg Havg]].
    rewrite (avg_field_length_lacks _ _ Hlack) in Havg. discriminate.
Qed.

Lemma ScorerBM25F_fields_present coll idx field_weights bi term (doc : Document) fields i acc acc' :
  for_enumerate (ScorerBM25F_score_field coll idx field_weights bi term doc)
    i fields acc = Ok acc' →
  ∀ field, field ∈ fields → is_Some (doc !! field).
Proof.
  revert i acc. induction fields as [|field0 rest IH]; intros i acc Hrun field Hin.
  - by apply elem_of_nil in Hin.
  - cbn [for_enumerate] in Hrun. apply bind_Ok_inv in Hrun as (acc1 & Hstep & Hrun).
    apply elem_of_cons in Hin as [->|Hin]; [|by eapply IH].
    by apply ScorerBM25F_score_field_avg in Hstep as [? _].
Qed.

Lemma ScorerBM25F_score_doc_raise coll idx fields field_weights bi k1 term query_freq
    doc_id doc s e :
  for_enumerate (ScorerBM25F_score_field coll idx field_weights bi term doc)
    0 fields (0, 0) = Raise e →
  ScorerBM25F_score_doc coll idx fields field_weights bi k1 term query_freq
    doc_id doc s = Raise e.
Proof. intros He. unfold ScorerBM25F_score_doc. by rewrite He. Qed.

(** C6, as the code has it: [ScorerBM25F.score_term] has no
    contains-term guard, so when it returns, every document of the
    collection has all the configured fields and has had
    [c_t_d / (k1 + c_t_d) × idf] added to its score; but if some document
    lacks a configured field, [score_term] raises and nothing is scored. *)
Theorem ScorerBM25F_every_document
    (coll : DocumentCollection) (idx : Index) (fields : list string)
    (field_weights bi : list R) (k1 : R) (term : string) (query_freq : nat)
    (scores : Scores) :
  (∀ field, field ∈ fields → Exists (lacks_field field) coll →
     ∃ e, ScorerBM25F_score_term coll idx fields field_weights bi k1
            term query_freq scores = Raise e) ∧
  (∀ scores', NoDup (doc_ids coll) →
     ScorerBM25F_score_term coll idx fields field_weights bi k1
       term query_freq scores = Ok scores' →
     ∀ doc_id doc, (doc_id, doc) ∈ coll →
       (∀ field, field ∈ fields → is_Some (doc !! field)) ∧
       ∃ c_t_d idf,
         for_enumerate (ScorerBM25F_score_field coll idx field_weights bi term doc)
           0 fields (0, 0) = Ok (c_t_d, idf) ∧
         scores' !! doc_id
           = Some (score_of scores doc_id + c_t_d / (k1 + c_t_d) * idf)).
Proof.
  split.
  - intros field Hin Hlack. unfold ScorerBM25F_score_term.
    destruct coll as [|[doc_id doc] rest]; [by apply Exists_nil in Hlack|].
    cbn [for_items].
    destruct (ScorerBM25F_fields_lacking ((doc_id, doc) :: rest) idx field_weights bi
                term doc fields 0 (0, 0) field Hin Hlack) as [e He].
    rewrite (ScorerBM25F_score_doc_raise _ _ _ _ _ _ _ _ _ _ _ _ He). by exists e.
  - intros scores' Hnd Hrun doc_id doc Hin.
    destruct (for_items_at _ _ _ _ _ _ (ScorerBM25F_own _ _ _ _ _ _ _ _) Hnd Hin Hrun)
      as (s1 & s2 & Hbody & Hs1 & Hs2).
    unfold ScorerBM25F_score_doc in Hbody.
    apply bind_Ok_inv in Hbody as ([c_t_d idf] & Hfields & Hbody).
    apply bind_Ok_inv in Hbody as (frac & Hfrac & Hbody). injection Hbody as <-.
    apply py_div_Ok_inv in Hfrac as [_ ->]. split.
    + by eapply ScorerBM25F_fields_present.
    + exists c_t_d, idf. split; [done|].
      by rewrite Hs2, lookup_iadd_eq, (score_of_lookup_eq _ _ _ Hs1).
Qed.

Lemma ScorerBM25F_every_document_witness :
  (∃ e, ScorerBM25F_score_term coll_missing_body index_missing_body
          ["title"; "body"]%string [0.2; 0.8] [0.75; 0.75] 1.2 "a" 1 ∅ = Raise e) ∧
  (∃ scores' c_t_d idf,
     ScorerBM25F_score_term coll_two_bodies index_two_bodies
       ["body"%string] [1] [0.75] 1.2 "a" 1 ∅ = Ok scores' ∧
     scores' !! "d2"%string = Some (score_of ∅ "d2" + c_t_d / (1.2 + c_t_d) * idf)).
Proof.
  split.
  - apply (proj1 (ScorerBM25F_every_document coll_missing_body index_missing_body
                    ["title"; "body"]%string [0.2; 0.8] [0.75; 0.75] 1.2 "a" 1 ∅)
             "title"%string).
    + apply elem_of_cons. by left.
    + apply Exists_cons_hd. reflexivity.
  - assert (∃ scores', ScorerBM25F_score_term coll_two_bodies index_two_bodies
              ["body"%string] [1] [0.75] 1.2 "a" 1 ∅ = Ok scores') as [scores' Hrun].
    { unfold coll_two_bodies, index_two_bodies.
      unfold ScorerBM25F_score_term, ScorerBM25F_score_doc, ScorerBM25F_score_field,
        idf_of, avg_field_length.
      py_eval. eexists. reflexivity. }
    destruct (proj2 (ScorerBM25F_every_document coll_two_bodies index_two_bodies
                       ["body"%string] [1] [0.75] 1.2 "a" 1 ∅)
                scores' ltac:(solve_NoDup) Hrun
                "d2"%string {["body"%string := ["b"; "b"]%string]}
                ltac:(apply elem_of_cons; right; apply elem_of_cons; by left))
      as (_ & c_t_d & idf & _ & Hscore).
    exists scores', c_t_d, idf. split; [exact Hrun | exact Hscore].
Defined.

(** C6 as worded fails: [d1] has no title, and scoring with the fields
    [title] and [body] raises [KeyError] instead of counting 0 for the
    title. *)
Lemma ScorerBM25F_missing_field_raises :
  ScorerBM25F_score_term coll_missing_body index_missing_body
    ["title"; "body"]%string [0.2; 0.8] [0.75; 0.75] 1.2 "a" 1 ∅ = Raise KeyError.
Proof.
  unfold coll_missing_body, index_missing_body.
  unfold ScorerBM25F_score_term, ScorerBM25F_score_doc, ScorerBM25F_score_field.
  py_eval. reflexivity.
Qed.

(** ** Single-field scorers and documents without the field *)

Lemma Counter_fold_head l t q c :
  ∃ q' c', fold_left (λ c t, Counter_incr t c) l ((t, q) :: c) = (t, q') :: c'.
Proof.
  revert q c. induction l as [|t' l IH]; intros q c; cbn [fold_left].
  - by eexists _, _.
  - cbn [Counter_incr]. case_bool_decide; apply IH.
Qed.

Lemma Counter_cons t query : ∃ q c, Counter (t :: query) = (t, q) :: c.
Proof. unfold Counter. cbn [fold_left Counter_incr]. apply Counter_fold_head. Qed.

Lemma SimpleScorer_lacks field term query_freq items s :
  Exists (lacks_field field) items →
  for_items (SimpleScorer_score_doc field term query_freq) items s = Raise KeyError.
Proof.
  intros Hlack. revert s.
  induction Hlack as [[doc_id doc] rest Hlack|[doc_id doc] rest _ IH]; intros s;
    cbn [for_items].
  - unfold SimpleScorer_score_doc, getitem. unfold lacks_field in Hlack.
    cbn in Hlack. by rewrite Hlack.
  - destruct (doc !! field) as [f|] eqn:Hf.
    + rewrite (SimpleScorer_score_doc_has _ _ _ _ _ f) by done.
      destruct (contains term f); cbn [mbind result_bind]; apply IH.
    + unfold SimpleScorer_score_doc, getitem. by rewrite Hf.
Qed.

Lemma idf_of_consistent coll idx field term doc_id (doc : Document) f :
  index_consistent coll idx →
  (doc_id, doc) ∈ coll → doc !! field = Some f → term ∈ f →
  ∃ idf, idf_of coll idx field term = Ok idf.
Proof.
  intros Hidx Hin Hf Ht.
  destruct (Hidx _ _ _ _ _ Hin Hf Ht) as (by_term & postings & Hfield & Hterm & Hid).
  unfold idf_of, getitem. rewrite Hfield. cbn [mbind result_bind].
  rewrite Hterm. cbn [mbind result_bind].
  assert (postings ≠ []) as Hpost.
  { intros ->. by apply elem_of_nil in Hid. }
  rewrite py_div_Ok by by apply INR_length_nonzero.
  cbn [mbind result_bind]. rewrite math_log_Ok; [by eexists|].
  apply Rdiv_lt_0_compat; apply lt_0_INR.
  - destruct coll; [by apply elem_of_nil in Hin | cbn; lia].
  - destruct postings; [done | cbn; lia].
Qed.

Lemma ScorerBM25_lacks coll idx field b k1 term query_freq items s :
  Exists (lacks_field field) coll →
  index_consistent coll idx →
  (∀ item, item ∈ items → item ∈ coll) →
  Exists (lacks_field field) items →
  for_items (ScorerBM25_score_doc coll idx field b k1 term query_freq) items s
    = Raise KeyError.
Proof.
  intros Hcoll Hidx Hsub Hlack. revert s.
  induction Hlack as [[doc_id doc] rest Hlack|[doc_id doc] rest _ IH]; intros s;
    cbn [for_items].
  - unfold ScorerBM25_score_doc, getitem. unfold lacks_field in Hlack.
    cbn in Hlack. by rewrite Hlack.
  - assert (ScorerBM25_score_doc coll idx field b k1 term query_freq doc_id doc s
              = Raise KeyError
            ∨ ScorerBM25_score_doc coll idx field b k1 term query_freq doc_id doc s
              = Ok s) as [->| ->]; [|done|].
    + unfold ScorerBM25_score_doc, getitem.
      destruct (doc !! field) as [f|] eqn:Hf; cbn [mbind result_bind]; [|by left].
      destruct (contains term f) eqn:Ht; [|by right].
      apply contains_true in Ht.
      destruct (idf_of_consistent coll idx field term doc_id doc f Hidx)
        as [idf ->]; [apply Hsub; by left | done | done |].
      cbn [mbind result_bind]. rewrite (avg_field_length_lacks _ _ Hcoll). by left.
    + cbn [mbind result_bind]. apply IH. intros item Hitem. apply Hsub. by right.
Qed.

(** C10: if some document lacks the configured field, scoring any
    non-empty query raises [KeyError] with [SimpleScorer], with [ScorerLM]
    and, the index being consistent with the collection, with
    [ScorerBM25]: each looks the field up in every document unguarded, also
    when no document contains the query's terms. *)
Theorem single_field_scorers_missing_field
    (coll : DocumentCollection) (idx : Index) (field : string) (query : list string) :
  Exists (lacks_field field) coll →
  query ≠ [] →
  score_collection coll idx (SimpleScorer field) query = Raise KeyError ∧
  (∀ smoothing_param,
     score_collection coll idx (ScorerLM field smoothing_param) query
       = Raise KeyError) ∧
  (∀ b k1, index_consistent coll idx →
     score_collection coll idx (ScorerBM25 field b k1) query = Raise KeyError).
Proof.
  intros Hlack Hquery. destruct query as [|t query]; [done|].
  unfold score_collection. destruct (Counter_cons t query) as (q & c & ->).
  cbn [score_terms score_term]. split; [|split].
  - unfold SimpleScorer_score_term. by rewrite SimpleScorer_lacks.
  - intros smoothing_param. unfold ScorerLM_score_term. cbn zeta.
    by rewrite (collection_count_lacks _ _ _ Hlack).
  - intros b k1 Hidx. unfold ScorerBM25_score_term. by rewrite ScorerBM25_lacks.
Qed.

Lemma index_consistent_missing_body :
  index_consistent coll_missing_body index_missing_body.
Proof.
  intros doc_id doc field f term Hin Hf Ht. unfold coll_missing_body in Hin.
  apply elem_of_cons in Hin as [[= -> ->]|Hin].
  - apply lookup_singleton_Some in Hf as [<- <-].
    exists {["a"%string := ["d1"%string]; "b"%string := ["d1"%string]]}, ["d1"%string].
    split; [reflexivity|]. split; [|by apply list_elem_of_singleton].
    apply elem_of_cons in Ht as [->|Ht]; [reflexivity|].
    apply list_elem_of_singleton in Ht as ->. reflexivity.
  - apply list_elem_of_singleton in Hin as [= -> ->].
    apply lookup_singleton_Some in Hf as [<- <-].
    apply list_elem_of_singleton in Ht as ->.
    exists {["c"%string := ["d2"%string]]}, ["d2"%string].
    split; [reflexivity|]. split; [reflexivity | by apply list_elem_of_singleton].
Qed.

Lemma single_field_scorers_missing_field_witness :
  score_collection coll_missing_body index_missing_body (SimpleScorer "body")
    ["a"%string] = Raise KeyError ∧
  score_collection coll_missing_body index_missing_body (ScorerLM "body" 0.1)
    ["a"%string] = Raise KeyError ∧
  score_collection coll_missing_body index_missing_body (ScorerBM25 "body" 0.75 1.2)
    ["a"%string] = Raise KeyError.
Proof.
  destruct (single_field_scorers_missing_field coll_missing_body index_missing_body
              "body" ["a"%string]) as (HS & HL & HB).
  - apply Exists_cons_tl, Exists_cons_hd. reflexivity.
  - discriminate.
  - split; [exact HS|]. split; [apply HL|].
    apply HB, index_consistent_missing_body.
Defined.

(** ** get_field_documents *)

Lemma get_field_documents_cons doc_id (doc : Document) rest field :
  get_field_documents ((doc_id, doc) :: rest) field =
    match doc !! field with
    | Some f => (doc_id, f) :: get_field_documents rest field
    | None => get_field_documents rest field
    end.
Proof. unfold get_field_documents. cbn. by destruct (doc !! field). Qed.

Lemma get_field_documents_sublist coll field :
  (get_field_documents coll field).*1 `sublist_of` doc_ids coll.
Proof.
  induction coll as [|[id0 doc0] rest IH]; [done|].
  rewrite get_field_documents_cons. cbn.
  destruct (doc0 !! field); cbn; [by apply sublist_skip | by apply sublist_cons].
Qed.

(** X1: [get_field_documents] holds exactly the documents that have the
    field, each with its term sequence, in the order of the collection;
    distinct ids stay distinct. *)
Theorem get_field_documents_items (coll : DocumentCollection) (field : string) :
  (∀ doc_id f,
     (doc_id, f) ∈ get_field_documents coll field ↔
     ∃ doc : Document, (doc_id, doc) ∈ coll ∧ doc !! field = Some f) ∧
  (get_field_documents coll field).*1 `sublist_of` doc_ids coll ∧
  (NoDup (doc_ids coll) → NoDup (get_field_documents coll field).*1).
Proof.
  split; [|split].
  - intros doc_id f. induction coll as [|[id0 doc0] rest IH].
    + split; [by intros ?%elem_of_nil | by intros (? & ?%elem_of_nil & _)].
    + rewrite get_field_documents_cons. destruct (doc0 !! field) as [f0|] eqn:Hf0.
      * rewrite elem_of_cons, IH. split.
        -- intros [[= -> ->]|(doc & Hin & Hf)].
           ++ exists doc0. split; [by left | done].
           ++ exists doc. split; [by right | done].
        -- intros (doc & [[= -> ->]|Hin]%elem_of_cons & Hf).
           ++ left. congruence.
           ++ right. by exists doc.
      * rewrite IH. split.
        -- intros (doc & Hin & Hf). exists doc. split; [by right | done].
        -- intros (doc & [[= -> ->]|Hin]%elem_of_cons & Hf); [congruence|].
           by exists doc.
  - apply get_field_documents_sublist.
  - intros Hnd. eapply sublist_NoDup; [done | apply get_field_documents_sublist].
Qed.

Lemma get_field_documents_items_witness :
  NoDup (get_field_documents coll_missing_body "body").*1.
Proof.
  apply (proj2 (proj2 (get_field_documents_items coll_missing_body "body"))).
  solve_NoDup.
Defined.

(** X2: [total_field_length] returns exactly when [get_field_documents]
    keeps every document, and its value is then the total length of the
    sequences [get_field_documents] returns. *)
Theorem total_field_length_get_field_documents
    (coll : DocumentCollection) (field : string) (n : nat) :
  total_field_length coll field = Ok n ↔
  (get_field_documents coll field).*1 = doc_ids coll ∧
  n = sum_list (length <$> (get_field_documents coll field).*2).
Proof.
  revert n. induction coll as [|[id0 doc0] rest IH]; intros n.
  - cbn. split; [by intros [= <-] | by intros [_ ->]].
  - rewrite get_field_documents_cons. cbn [total_field_length]. unfold getitem.
    destruct (doc0 !! field) as [f0|] eqn:Hf0; cbn.
    + destruct (total_field_length rest field) as [m|e] eqn:Hrest; cbn.
      * destruct (proj1 (IH m) eq_refl) as [Hkeys ->]. split.
        -- intros [= <-]. split; [by f_equal | done].
        -- by intros [_ ->].
      * split; [discriminate|]. intros [[= Hkeys] ->].
        pose proof (proj2 (IH _) (conj Hkeys eq_refl)) as Hbad. discriminate.
    + split; [discriminate|]. intros [Hkeys _]. exfalso.
      pose proof (sublist_length _ _ (get_field_documents_sublist rest field)) as Hlen.
      apply (f_equal length) in Hkeys. cbn in Hkeys. unfold doc_ids in *.
      rewrite !length_fmap in *. lia.
Qed.

Lemma total_field_length_get_field_documents_witness :
  (get_field_documents coll_two_bodies "body").*1 = doc_ids coll_two_bodies ∧
  5%nat = sum_list (length <$> (get_field_documents coll_two_bodies "body").*2).
Proof.
  apply (proj1 (total_field_length_get_field_documents coll_two_bodies "body" 5)).
  reflexivity.
Defined.

(** ** SimpleScorer: failure and whole-query scores *)

Lemma has_or_lacks_field field (coll : DocumentCollection) :
  Forall (has_field field) coll ∨ Exists (lacks_field field) coll.
Proof.
  induction coll as [|[doc_id doc] rest [IH|IH]].
  - left. constructor.
  - destruct (doc !! field) as [f|] eqn:Hf.
    + left. constructor; [by exists f | done].
    + right. by apply Exists_cons_hd.
  - right. by apply Exists_cons_tl.
Qed.

Lemma has_not_lacks_field field (coll : DocumentCollection) :
  Forall (has_field field) coll → Exists (lacks_field field) coll → False.
Proof.
  intros Hall Hex. apply Exists_exists in Hex as (item & Hin & Hlack).
  rewrite Forall_forall in Hall. destruct (Hall _ Hin) as [f Hf].
  unfold lacks_field in Hlack. congruence.
Qed.

(** X3: [SimpleScorer.score_term] returns exactly when every document has
    the configured field, and the only exception it raises is [KeyError]. *)
Theorem SimpleScorer_returns_iff_all_have_field
    (coll : DocumentCollection) (field term : string) (query_freq : nat)
    (scores : Scores) :
  (Forall (has_field field) coll ↔
   ∃ scores', SimpleScorer_score_term coll field term query_freq scores = Ok scores') ∧
  (∀ e, SimpleScorer_score_term coll field term query_freq scores = Raise e →
        e = KeyError).
Proof.
  unfold SimpleScorer_score_term. split; [split|].
  - apply SimpleScorer_total.
  - intros [scores' Hrun]. destruct (has_or_lacks_field field coll) as [|Hlack]; [done|].
    rewrite (SimpleScorer_lacks _ _ _ _ _ Hlack) in Hrun. discriminate.
  - intros e Hrun. destruct (has_or_lacks_field field coll) as [Hall|Hlack].
    + destruct (SimpleScorer_total field term query_freq coll scores Hall) as [s' Hs'].
      rewrite Hs' in Hrun. discriminate.
    + rewrite (SimpleScorer_lacks _ _ _ _ _ Hlack) in Hrun. by injection Hrun as <-.
Qed.

Lemma SimpleScorer_term_at coll field term query_freq s s' doc_id (doc : Document) f :
  NoDup (doc_ids coll) → (doc_id, doc) ∈ coll → doc !! field = Some f →
  SimpleScorer_score_term coll field term query_freq s = Ok s' →
  score_of s' doc_id = score_of s doc_id + INR (count term f * query_freq).
Proof.
  intros Hnd Hin Hf Hrun.
  destruct (for_items_at _ _ _ _ _ _ (SimpleScorer_own _ _ _) Hnd Hin Hrun)
    as (s1 & s2 & Hbody & Hs1 & Hs2).
  rewrite (SimpleScorer_score_doc_has _ _ _ _ _ f) in Hbody by done.
  rewrite (score_of_lookup_eq _ _ _ Hs2), <- (score_of_lookup_eq _ _ _ Hs1).
  destruct (contains term f) eqn:Ht; injection Hbody as <-.
  - apply score_of_iadd_eq.
  - apply contains_false, count_zero in Ht. rewrite Ht. cbn. lra.
Qed.

Lemma SimpleScorer_terms_at coll idx field c s s' doc_id (doc : Document) f :
  NoDup (doc_ids coll) → (doc_id, doc) ∈ coll → doc !! field = Some f →
  score_terms coll idx (SimpleScorer field) c s = Ok s' →
  score_of s' doc_id = score_of s doc_id + INR (Counter_dot c f).
Proof.
  intros Hnd Hin Hf. revert s.
  induction c as [|[t q] c IH]; intros s Hrun; cbn [score_terms] in Hrun.
  - injection Hrun as <-. cbn. lra.
  - apply bind_Ok_inv in Hrun as (s1 & Hterm & Hrun). cbn [score_term] in Hterm.
    rewrite (IH _ Hrun), (SimpleScorer_term_at _ _ _ _ _ _ _ _ _ Hnd Hin Hf Hterm).
    cbn [Counter_dot]. rewrite plus_INR. lra.
Qed.

Lemma Counter_dot_incr t c f :
  Counter_dot (Counter_incr t c) f = (Counter_dot c f + count t f)%nat.
Proof.
  induction c as [|[k n] c IH]; cbn; [lia|].
  case_bool_decide; subst; cbn; [lia | rewrite IH; lia].
Qed.

Lemma Counter_dot_fold l c f :
  Counter_dot (fold_left (λ c t, Counter_incr t c) l c) f
    = (Counter_dot c f + sum_list ((λ t, count t f) <$> l))%nat.
Proof.
  revert c. induction l as [|t l IH]; intros c; cbn; [lia|].
  rewrite IH, Counter_dot_incr. lia.
Qed.

(** X4: when [SimpleScorer.score_collection] returns, the score of a
    document is the sum, over the positions of the query, of the number of
    occurrences of that query term in the document's field. *)
Theorem SimpleScorer_score_collection_closed_form
    (coll : DocumentCollection) (idx : Index) (field : string)
    (query : list string) (scores : Scores) :
  NoDup (doc_ids coll) →
  score_collection coll idx (SimpleScorer field) query = Ok scores →
  ∀ doc_id (doc : Document) f, (doc_id, doc) ∈ coll → doc !! field = Some f →
    score_of scores doc_id = INR (sum_list ((λ t, count t f) <$> query)).
Proof.
  intros Hnd Hrun doc_id doc f Hin Hf. unfold score_collection in Hrun.
  rewrite (SimpleScorer_terms_at _ _ _ _ _ _ _ _ _ Hnd Hin Hf Hrun).
  unfold Counter. rewrite Counter_dot_fold, score_of_empty. cbn. lra.
Qed.

Lemma SimpleScorer_score_collection_closed_form_witness :
  ∃ scores,
    score_collection coll_two_bodies index_two_bodies (SimpleScorer "body")
      ["a"; "b"; "a"]%string = Ok scores ∧
    score_of scores "d1" = INR 5.
Proof.
  assert (∃ scores, score_collection coll_two_bodies index_two_bodies
            (SimpleScorer "body") ["a"; "b"; "a"]%string = Ok scores)
    as [scores Hrun].
  { unfold score_collection.
    change (Counter _) with [("a"%string, 2%nat); ("b"%string, 1%nat)].
    unfold coll_two_bodies. cbn [score_terms score_term].
    unfold SimpleScorer_score_term, SimpleScorer_score_doc. py_eval.
    eexists. reflexivity. }
  exists scores. split; [exact Hrun|].
  exact (SimpleScorer_score_collection_closed_form coll_two_bodies index_two_bodies
           "body" ["a"; "b"; "a"]%string scores ltac:(solve_NoDup) Hrun
           "d1"%string {["body"%string := ["a"; "b"; "a"]%string]}
           ["a"; "b"; "a"]%string ltac:(apply elem_of_cons; by left) eq_refl).
Defined.

(** ** Properties of every scorer *)

Lemma score_term_other coll idx self term query_freq s s' d :
  score_term coll idx self term query_freq s = Ok s' →
  d ∉ doc_ids coll → s' !! d = s !! d.
Proof.
  intros Hrun Hd. destruct self; cbn [score_term] in Hrun.
  - eapply for_items_other; [apply SimpleScorer_own | done..].
  - eapply for_items_other; [apply ScorerBM25_own | done..].
  - unfold ScorerLM_score_term in Hrun. cbn zeta in Hrun.
    apply bind_Ok_inv in Hrun as (occurrences & _ & Hrun).
    apply bind_Ok_inv in Hrun as (total & _ & Hrun).
    apply bind_Ok_inv in Hrun as (P_t_C & _ & Hrun).
    eapply for_items_other; [apply ScorerLM_own | done..].
  - eapply for_items_other; [apply ScorerBM25F_own | done..].
  - eapply for_items_other; [apply ScorerMLM_own | done..].
Qed.

(** X5: whatever the scorer, the mapping [score_collection] returns has
    no key that is not a document id of the collection. *)
Theorem score_collection_keys_are_doc_ids
    (coll : DocumentCollection) (idx : Index) (self : Scorer)
    (query : list string) (scores : Scores) :
  score_collection coll idx self query = Ok scores →
  ∀ d, d ∉ doc_ids coll → scores !! d = None.
Proof.
  unfold score_collection. intros Hrun d Hd.
  assert (∀ c s s', score_terms coll idx self c s = Ok s' → s' !! d = s !! d) as Hterms.
  { induction c as [|[t q] c IH]; intros s s' Hc; cbn [score_terms] in Hc.
    - by injection Hc as <-.
    - apply bind_Ok_inv in Hc as (s1 & Hterm & Hc).
      rewrite (IH _ _ Hc). by eapply score_term_other. }
  rewrite (Hterms _ _ _ Hrun). apply lookup_empty.
Qed.

Lemma score_collection_keys_are_doc_ids_witness :
  ∃ scores,
    score_collection coll_two_bodies index_two_bodies (SimpleScorer "body")
      ["b"%string] = Ok scores ∧
    scores !! "d3"%string = None.
Proof.
  assert (∃ scores, score_collection coll_two_bodies index_two_bodies
            (SimpleScorer "body") ["b"%string] = Ok scores) as [scores Hrun].
  { unfold score_collection. change (Counter _) with [("b"%string, 1%nat)].
    unfold coll_two_bodies. cbn [score_terms score_term].
    unfold SimpleScorer_score_term, SimpleScorer_score_doc. py_eval.
    eexists. reflexivity. }
  exists scores. split; [exact Hrun|].
  apply (score_collection_keys_are_doc_ids coll_two_bodies index_two_bodies
           (SimpleScorer "body") ["b"%string] scores Hrun "d3"%string).
  apply (bool_decide_unpack _). by vm_compute.
Defined.

Lemma SimpleScorer_returns_iff_all_have_field_witness :
  ∃ scores', SimpleScorer_score_term coll_two_bodies "body" "a" 1 ∅ = Ok scores'.
Proof.
  apply (proj1 (proj1 (SimpleScorer_returns_iff_all_have_field
                         coll_two_bodies "body" "a" 1 ∅))).
  repeat constructor; eexists; reflexivity.
Defined.

(** ** The empty collection and empty fields *)

Lemma score_terms_empty_collection idx self c s :
  (∀ field smoothing_param, self ≠ ScorerLM field smoothing_param) →
  score_terms [] idx self c s = Ok s.
Proof.
  intros Hself. induction c as [|[t q] c IH]; [done|].
  cbn [score_terms]. destruct self; cbn; try apply IH.
  by destruct (Hself field smoothing_param).
Qed.

(** X6: on the empty collection every scorer but [ScorerLM] returns the
    empty mapping for every query. *)
Theorem score_collection_empty_collection
    (idx : Index) (self : Scorer) (query : list string) :
  (∀ field smoothing_param, self ≠ ScorerLM field smoothing_param) →
  score_collection [] idx self query = Ok ∅.
Proof. intros Hself. by apply score_terms_empty_collection. Qed.

Lemma score_collection_empty_collection_witness :
  score_collection [] index_two_bodies (ScorerBM25 "body" 0.75 1.2)
    ["a"; "b"]%string = Ok ∅.
Proof.
  apply (score_collection_empty_collection index_two_bodies
           (ScorerBM25 "body" 0.75 1.2) ["a"; "b"]%string).
  discriminate.
Defined.

(** X7: when every document has the field and all these fields are empty
    (the empty collection included), [ScorerLM.score_collection] raises
    [ZeroDivisionError] for every non-empty query. *)
Theorem ScorerLM_empty_fields_ZeroDivisionError
    (coll : DocumentCollection) (idx : Index) (field : string)
    (smoothing_param : R) (query : list string) :
  total_field_length coll field = Ok 0%nat →
  query ≠ [] →
  score_collection coll idx (ScorerLM field smoothing_param) query
    = Raise ZeroDivisionError.
Proof.
  intros Htotal Hquery. destruct query as [|t query]; [done|].
  unfold score_collection. destruct (Counter_cons t query) as (q & c & ->).
  cbn [score_terms score_term]. unfold ScorerLM_score_term. cbn zeta.
  destruct (collection_count coll field t) as [occurrences|e] eqn:Hocc.
  - rewrite Htotal. cbn. by rewrite py_div_zero.
  - exfalso. destruct (has_or_lacks_field field coll) as [Hall|Hlack].
    + clear -Hall Hocc. revert e Hocc.
      induction Hall as [|[doc_id doc] rest [f Hf] _ IH]; intros e Hocc; cbn in Hocc;
        [discriminate|].
      cbn in Hf. unfold getitem in Hocc. rewrite Hf in Hocc. cbn in Hocc.
      destruct (collection_count rest field t) eqn:Hrest; [discriminate|].
      by eapply IH.
    + rewrite (total_field_length_lacks _ _ Hlack) in Htotal. discriminate.
Qed.

Lemma ScorerLM_empty_fields_ZeroDivisionError_witness :
  score_collection [] index_two_bodies (ScorerLM "body" 0.1) ["a"%string]
    = Raise ZeroDivisionError.
Proof.
  apply (ScorerLM_empty_fields_ZeroDivisionError [] index_two_bodies "body" 0.1
           ["a"%string]); [reflexivity | discriminate].
Defined.

(** ** Repeated query terms *)

Lemma score_terms_same_keys coll idx self c1 c2 s :
  ignores_query_freq self → c1.*1 = c2.*1 →
  score_terms coll idx self c1 s = score_terms coll idx self c2 s.
Proof.
  intros Hself. revert c2 s.
  induction c1 as [|[t q1] c1 IH]; intros [|[t' q2] c2] s Hkeys;
    try discriminate; [done|].
  injection Hkeys as <- Hkeys. cbn [score_terms].
  assert (score_term coll idx self t q1 s = score_term coll idx self t q2 s) as ->.
  { by destruct self. }
  destruct (score_term coll idx self t q2 s); cbn; [by apply IH | done].
Qed.

Lemma Counter_fold_same_keys l c1 c2 :
  c1.*1 = c2.*1 →
  (fold_left (λ c t, Counter_incr t c) l c1).*1
  = (fold_left (λ c t, Counter_incr t c) l c2).*1.
Proof.
  revert c1 c2. induction l as [|t l IH]; intros c1 c2 Hkeys; cbn; [done|].
  apply IH. by rewrite !Counter_incr_keys, Hkeys.
Qed.

(** X8: [ScorerBM25], [ScorerBM25F] and [ScorerMLM] do not read the query
    frequency: a further occurrence of a term the query already has
    changes nothing in what [score_collection] returns or raises. *)
Theorem score_collection_repeated_term
    (coll : DocumentCollection) (idx : Index) (self : Scorer)
    (q1 q2 : list string) (t : string) :
  ignores_query_freq self →
  t ∈ q1 →
  score_collection coll idx self (q1 ++ t :: q2)
  = score_collection coll idx self (q1 ++ q2).
Proof.
  intros Hself Ht. unfold score_collection.
  apply score_terms_same_keys; [done|].
  unfold Counter. rewrite !fold_left_app. cbn [fold_left].
  apply Counter_fold_same_keys. rewrite Counter_incr_keys.
  rewrite bool_decide_eq_true_2; [done|].
  apply list_elem_of_fmap. exists (t, count t q1). split; [done|].
  by apply Counter_items.
Qed.

Lemma score_collection_repeated_term_witness :
  score_collection coll_two_bodies index_two_bodies (ScorerBM25 "body" 0.75 1.2)
    (["a"; "b"]%string ++ "a"%string :: ["b"%string])
  = score_collection coll_two_bodies index_two_bodies (ScorerBM25 "body" 0.75 1.2)
      (["a"; "b"]%string ++ ["b"%string]).
Proof.
  apply (score_collection_repeated_term coll_two_bodies index_two_bodies
           (ScorerBM25 "body" 0.75 1.2) ["a"; "b"]%string ["b"%string] "a"%string).
  - exact I.
  - apply elem_of_cons. by left.
Defined.

(** ** Multi-field scorers: weights, field names, empty fields *)

Lemma list_getitem_Ok {A} (l : list A) i v : list_getitem l i = Ok v → (i < length l)%nat.
Proof.
  unfold list_getitem. destruct (l !! i) eqn:Hl; [|discriminate].
  intros _. by eapply lookup_lt_Some.
Qed.

Lemma ScorerBM25F_fields_lengths coll idx field_weights bi term doc fields i acc acc' :
  for_enumerate (ScorerBM25F_score_field coll idx field_weights bi term doc)
    i fields acc = Ok acc' →
  fields ≠ [] →
  (i + length fields ≤ length field_weights)%nat ∧ (i + length fields ≤ length bi)%nat.
Proof.
  revert i acc. induction fields as [|field rest IH]; intros i acc Hrun Hne; [done|].
  cbn [for_enumerate] in Hrun. apply bind_Ok_inv in Hrun as (acc1 & Hstep & Hrun).
  unfold ScorerBM25F_score_field in Hstep. destruct acc as [c_t_d idf].
  apply bind_Ok_inv in Hstep as (b_i & Hb & Hstep).
  apply bind_Ok_inv in Hstep as (f & _ & Hstep).
  apply bind_Ok_inv in Hstep as (avg & _ & Hstep).
  apply bind_Ok_inv in Hstep as (norm & _ & Hstep).
  apply bind_Ok_inv in Hstep as (w & Hw & _).
  apply list_getitem_Ok in Hb. apply list_getitem_Ok in Hw.
  destruct rest as [|field' rest'].
  - cbn. lia.
  - destruct (IH _ _ Hrun) as [? ?]; [done|]. cbn [length] in *. lia.
Qed.

Lemma ScorerMLM_fields_lengths coll field_weights term doc fields i acc acc' :
  for_enumerate (ScorerMLM_score_field coll field_weights term doc)
    i fields acc = Ok acc' →
  fields ≠ [] →
  (i + length fields ≤ length field_weights)%nat.
Proof.
  revert i acc. induction fields as [|field rest IH]; intros i acc Hrun Hne; [done|].
  cbn [for_enumerate] in Hrun. apply bind_Ok_inv in Hrun as (acc1 & Hstep & Hrun).
  unfold ScorerMLM_score_field in Hstep. destruct acc as [c_t_d P_t_C].
  apply bind_Ok_inv in Hstep as (w & Hw & _).
  apply list_getitem_Ok in Hw.
  destruct rest as [|field' rest'].
  - cbn. lia.
  - specialize (IH _ _ Hrun ltac:(done)). cbn [length] in *. lia.
Qed.

(** X9: [ScorerBM25F.__init__] accepts any non-empty list of fields without
    comparing it with [field_weights] and [bi]; when one of these is
    shorter than the list of fields, [score_term] raises on every
    non-empty collection. *)
Theorem ScorerBM25F_short_weights
    (fields : list string) (field_weights bi : list R) (k1 : R) :
  (length field_weights < length fields ∨ length bi < length fields)%nat →
  ScorerBM25F_init fields field_weights bi k1
    = Ok (ScorerBM25F fields field_weights bi k1) ∧
  ∀ coll idx term query_freq scores, coll ≠ [] →
    ∃ e, score_term coll idx (ScorerBM25F fields field_weights bi k1)
           term query_freq scores = Raise e.
Proof.
  intros Hshort.
  assert (fields ≠ []) as Hne by (intros ->; cbn in Hshort; lia).
  split.
  - unfold ScorerBM25F_init, Scorer_init. cbn.
    by rewrite bool_decide_eq_true_2.
  - intros coll idx term query_freq scores Hcoll.
    destruct coll as [|[doc_id doc] rest]; [done|].
    cbn [score_term]. unfold ScorerBM25F_score_term. cbn [for_items].
    destruct (for_enumerate
                (ScorerBM25F_score_field ((doc_id, doc) :: rest) idx
                   field_weights bi term doc) 0 fields (0, 0))
      as [acc|e] eqn:Hfields.
    + apply ScorerBM25F_fields_lengths in Hfields; [|done]. lia.
    + rewrite (ScorerBM25F_score_doc_raise _ _ _ _ _ _ _ _ _ _ _ _ Hfields).
      by exists e.
Qed.

Lemma ScorerBM25F_short_weights_witness :
  ScorerBM25F_init ["title"; "body"]%string [1] [0.75; 0.75] 1.2
    = Ok (ScorerBM25F ["title"; "body"]%string [1] [0.75; 0.75] 1.2) ∧
  ∃ e, score_term coll_title_body index_title_body
         (ScorerBM25F ["title"; "body"]%string [1] [0.75; 0.75] 1.2) "a" 1 ∅
       = Raise e.
Proof.
  destruct (ScorerBM25F_short_weights ["title"; "body"]%string [1] [0.75; 0.75] 1.2)
    as [Hinit Hraise].
  - left. cbn. lia.
  - split; [exact Hinit|]. apply Hraise. discriminate.
Defined.

Lemma ScorerMLM_score_doc_raise coll fields field_weights smoothing_param term
    query_freq doc_id doc s e :
  for_enumerate (ScorerMLM_score_field coll field_weights term doc)
    0 fields (0, 0) = Raise e →
  ScorerMLM_score_doc coll fields field_weights smoothing_param term query_freq
    doc_id doc s = Raise e.
Proof. intros He. unfold ScorerMLM_score_doc. cbn zeta. by rewrite He. Qed.

(** X10: [ScorerMLM.__init__] accepts any non-empty list of fields without
    comparing it with [field_weights]; when there are fewer weights than
    fields, [score_term] raises on every non-empty collection. *)
Theorem ScorerMLM_short_weights
    (fields : list string) (field_weights : list R) (smoothing_param : R) :
  (length field_weights < length fields)%nat →
  ScorerMLM_init fields field_weights smoothing_param
    = Ok (ScorerMLM fields field_weights smoothing_param) ∧
  ∀ coll idx term query_freq scores, coll ≠ [] →
    ∃ e, score_term coll idx (ScorerMLM fields field_weights smoothing_param)
           term query_freq scores = Raise e.
Proof.
  intros Hshort.
  assert (fields ≠ []) as Hne by (intros ->; cbn in Hshort; lia).
  split.
  - unfold ScorerMLM_init, Scorer_init. cbn.
    by rewrite bool_decide_eq_true_2.
  - intros coll idx term query_freq scores Hcoll.
    destruct coll as [|[doc_id doc] rest]; [done|].
    cbn [score_term]. unfold ScorerMLM_score_term. cbn [for_items].
    destruct (for_enumerate
                (ScorerMLM_score_field ((doc_id, doc) :: rest)
                   field_weights term doc) 0 fields (0, 0))
      as [acc|e] eqn:Hfields.
    + apply ScorerMLM_fields_lengths in Hfields; [|done]. lia.
    + rewrite (ScorerMLM_score_doc_raise _ _ _ _ _ _ _ _ _ _ Hfields).
      by exists e.
Qed.

Lemma ScorerMLM_short_weights_witness :
  ScorerMLM_init ["title"; "body"]%string [1] 0.1
    = Ok (ScorerMLM ["title"; "body"]%string [1] 0.1) ∧
  ∃ e, score_term coll_title_body index_title_body
         (ScorerMLM ["title"; "body"]%string [1] 0.1) "a" 1 ∅ = Raise e.
Proof.
  destruct (ScorerMLM_short_weights ["title"; "body"]%string [1] 0.1) as [Hinit Hraise].
  - cbn. lia.
  - split; [exact Hinit|]. apply Hraise. discriminate.
Defined.

Lemma ScorerBM25F_fields_idf coll idx field_weights bi term doc fields i c_t_d idf
    c_t_d' idf' :
  "body"%string ∉ fields →
  for_enumerate (ScorerBM25F_score_field coll idx field_weights bi term doc)
    i fields (c_t_d, idf) = Ok (c_t_d', idf') →
  idf' = idf.
Proof.
  revert i c_t_d. induction fields as [|field rest IH]; intros i c_t_d Hbody Hrun.
  - cbn in Hrun. by injection Hrun as _ ->.
  - apply not_elem_of_cons in Hbody as [Hne Hbody].
    cbn [for_enumerate] in Hrun.
    apply bind_Ok_inv in Hrun as ([c1 idf1] & Hstep & Hrun).
    unfold ScorerBM25F_score_field in Hstep.
    apply bind_Ok_inv in Hstep as (b_i & _ & Hstep).
    apply bind_Ok_inv in Hstep as (f & _ & Hstep).
    apply bind_Ok_inv in Hstep as (avg & _ & Hstep).
    apply bind_Ok_inv in Hstep as (norm & _ & Hstep).
    apply bind_Ok_inv in Hstep as (w & _ & Hstep).
    apply bind_Ok_inv in Hstep as (frac & _ & Hstep).
    rewrite bool_decide_eq_false_2 in Hstep by done.
    injection Hstep as _ <-. by eapply IH.
Qed.

(** X11: the idf of [ScorerBM25F] is set only at a field named [body]; with
    no such field among the configured ones, a [score_term] that returns
    has added 0 to every score. *)
Theorem ScorerBM25F_without_body_scores_zero
    (coll : DocumentCollection) (idx : Index) (fields : list string)
    (field_weights bi : list R) (k1 : R) (term : string) (query_freq : nat)
    (scores scores' : Scores) :
  "body"%string ∉ fields →
  ScorerBM25F_score_term coll idx fields field_weights bi k1 term query_freq scores
    = Ok scores' →
  ∀ d, score_of scores' d = score_of scores d.
Proof.
  intros Hbody. unfold ScorerBM25F_score_term.
  generalize coll at 2. intros items. revert scores.
  induction items as [|[doc_id doc] rest IH]; intros scores Hrun d;
    cbn [for_items] in Hrun.
  - by injection Hrun as <-.
  - apply bind_Ok_inv in Hrun as (s1 & Hdoc & Hrun). rewrite (IH _ Hrun).
    unfold ScorerBM25F_score_doc in Hdoc.
    apply bind_Ok_inv in Hdoc as ([c_t_d idf] & Hfields & Hdoc).
    apply bind_Ok_inv in Hdoc as (frac & _ & Hdoc). injection Hdoc as <-.
    apply ScorerBM25F_fields_idf in Hfields as ->; [|done].
    destruct (decide (doc_id = d)) as [->|Hne].
    + rewrite score_of_iadd_eq. lra.
    + by rewrite score_of_iadd_ne.
Qed.

Lemma ScorerBM25F_without_body_scores_zero_witness :
  ∃ scores',
    ScorerBM25F_score_term coll_title_body index_title_body ["title"%string]
      [1] [0.75] 1.2 "a" 1 ∅ = Ok scores' ∧
    score_of scores' "d1" = score_of ∅ "d1".
Proof.
  assert (∃ scores', ScorerBM25F_score_term coll_title_body index_title_body
            ["title"%string] [1] [0.75] 1.2 "a" 1 ∅ = Ok scores')
    as [scores' Hrun].
  { unfold coll_title_body, index_title_body.
    unfold ScorerBM25F_score_term, ScorerBM25F_score_doc, ScorerBM25F_score_field,
      idf_of, avg_field_length.
    py_eval. eexists. reflexivity. }
  exists scores'. split; [exact Hrun|].
  apply (ScorerBM25F_without_body_scores_zero coll_title_body index_title_body
           ["title"%string] [1] [0.75] 1.2 "a" 1 ∅ scores'); [|exact Hrun].
  apply (bool_decide_unpack _). by vm_compute.
Defined.

Lemma for_enumerate_ext body1 body2 i fields acc :
  (∀ j field acc, (i ≤ j < i + length fields)%nat →
     body1 j field acc = body2 j field acc) →
  for_enumerate body1 i fields acc = for_enumerate body2 i fields acc.
Proof.
  revert i acc. induction fields as [|field rest IH]; intros i acc Hext; [done|].
  cbn [for_enumerate]. rewrite Hext by (cbn; lia).
  destruct (body2 i field acc) as [acc'|e]; cbn; [|done].
  apply IH. intros j field' acc'' Hj. apply Hext. cbn. lia.
Qed.

Lemma for_items_ext body1 body2 items s :
  (∀ doc_id doc s, body1 doc_id doc s = body2 doc_id doc s) →
  for_items body1 items s = for_items body2 items s.
Proof.
  intros Hext. revert s. induction items as [|[doc_id doc] rest IH]; intros s; [done|].
  cbn [for_items]. rewrite Hext.
  destruct (body2 doc_id doc s) as [s'|e]; cbn; [apply IH | done].
Qed.

Lemma list_getitem_app_l {A} (l extra : list A) i :
  (i < length l)%nat → list_getitem (l ++ extra) i = list_getitem l i.
Proof. intros Hi. unfold list_getitem. by rewrite lookup_app_l. Qed.

(** X12: entries of [field_weights] and [bi] beyond the number of fields are
    never read: [ScorerBM25F.score_term] does the same with and without
    them. *)
Theorem ScorerBM25F_extra_weights_ignored
    (coll : DocumentCollection) (idx : Index) (fields : list string)
    (field_weights bi extra_weights extra_bi : list R) (k1 : R)
    (term : string) (query_freq : nat) (scores : Scores) :
  (length fields ≤ length field_weights)%nat →
  (length fields ≤ length bi)%nat →
  ScorerBM25F_score_term coll idx fields (field_weights ++ extra_weights)
    (bi ++ extra_bi) k1 term query_freq scores
  = ScorerBM25F_score_term coll idx fields field_weights bi k1 term query_freq scores.
Proof.
  intros Hw Hb. unfold ScorerBM25F_score_term. apply for_items_ext.
  intros doc_id doc s. unfold ScorerBM25F_score_doc.
  rewrite (for_enumerate_ext
             (ScorerBM25F_score_field coll idx (field_weights ++ extra_weights)
                (bi ++ extra_bi) term doc)
             (ScorerBM25F_score_field coll idx field_weights bi term doc)); [done|].
  intros j field [c_t_d idf] Hj. unfold ScorerBM25F_score_field.
  by rewrite !list_getitem_app_l by lia.
Qed.

Lemma ScorerBM25F_extra_weights_ignored_witness :
  ScorerBM25F_score_term coll_title_body index_title_body ["title"; "body"]%string
    ([0.2; 0.8] ++ [0.5]) ([0.75; 0.75] ++ [0.1; 0.2]) 1.2 "a" 1 ∅
  = ScorerBM25F_score_term coll_title_body index_title_body ["title"; "body"]%string
      [0.2; 0.8] [0.75; 0.75] 1.2 "a" 1 ∅.
Proof.
  apply (ScorerBM25F_extra_weights_ignored coll_title_body index_title_body
           ["title"; "body"]%string [0.2; 0.8] [0.75; 0.75] [0.5] [0.1; 0.2] 1.2
           "a" 1 ∅); cbn; lia.
Defined.

Lemma ScorerMLM_fields_nonempty coll field_weights term (doc : Document) fields i acc acc' :
  for_enumerate (ScorerMLM_score_field coll field_weights term doc)
    i fields acc = Ok acc' →
  ∀ field, field ∈ fields → ∃ f, doc !! field = Some f ∧ f ≠ [].
Proof.
  revert i acc. induction fields as [|field0 rest IH]; intros i acc Hrun field Hin.
  - by apply elem_of_nil in Hin.
  - cbn [for_enumerate] in Hrun. apply bind_Ok_inv in Hrun as (acc1 & Hstep & Hrun).
    apply elem_of_cons in Hin as [->|Hin]; [|by eapply IH].
    unfold ScorerMLM_score_field in Hstep. destruct acc as [c_t_d P_t_C].
    apply bind_Ok_inv in Hstep as (w & _ & Hstep).
    apply bind_Ok_inv in Hstep as (f & Hf & Hstep). apply getitem_Ok in Hf.
    apply bind_Ok_inv in Hstep as (p & Hp & _).
    apply py_div_Ok_inv in Hp as [Hlen _].
    exists f. split; [done|]. intros ->. by apply Hlen.
Qed.

Lemma for_items_ran body items s s' doc_id doc :
  (doc_id, doc) ∈ items →
  for_items body items s = Ok s' →
  ∃ s1 s2, body doc_id doc s1 = Ok s2.
Proof.
  revert s. induction items as [|[id0 doc0] rest IH]; intros s Hin Hrun.
  - by apply elem_of_nil in Hin.
  - cbn [for_items] in Hrun. apply bind_Ok_inv in Hrun as (s1 & Hbody & Hrun).
    apply elem_of_cons in Hin as [[= -> ->]|Hin]; eauto.
Qed.

(** X13: [ScorerMLM.score_term] divides by the length of each configured
    field of each document: when it returns, every document of the
    collection has every configured field, and none of them is empty. *)
Theorem ScorerMLM_returns_only_nonempty_fields
    (coll : DocumentCollection) (fields : list string) (field_weights : list R)
    (smoothing_param : R) (term : string) (query_freq : nat)
    (scores scores' : Scores) :
  ScorerMLM_score_term coll fields field_weights smoothing_param term query_freq
    scores = Ok scores' →
  ∀ doc_id (doc : Document) field, (doc_id, doc) ∈ coll → field ∈ fields →
    ∃ f, doc !! field = Some f ∧ f ≠ [].
Proof.
  intros Hrun doc_id doc field Hin Hfield. unfold ScorerMLM_score_term in Hrun.
  destruct (for_items_ran _ _ _ _ _ _ Hin Hrun) as (s1 & s2 & Hdoc).
  unfold ScorerMLM_score_doc in Hdoc. cbn zeta in Hdoc.
  apply bind_Ok_inv in Hdoc as ([c_t_d P_t_C] & Hfields & _).
  by eapply ScorerMLM_fields_nonempty.
Qed.

Lemma ScorerMLM_returns_only_nonempty_fields_witness :
  ∃ scores' f,
    ScorerMLM_score_term coll_two_bodies ["body"%string] [1] 0.1 "a" 1 ∅
      = Ok scores' ∧
    ({["body"%string := ["a"; "b"; "a"]%string]} : Document) !! "body"%string
      = Some f ∧
    f ≠ [].
Proof.
  assert (∃ scores', ScorerMLM_score_term coll_two_bodies ["body"%string] [1] 0.1
            "a" 1 ∅ = Ok scores') as [scores' Hrun].
  { unfold coll_two_bodies.
    unfold ScorerMLM_score_term, ScorerMLM_score_doc, ScorerMLM_score_field.
    py_eval. eexists. reflexivity. }
  destruct (ScorerMLM_returns_only_nonempty_fields coll_two_bodies ["body"%string]
              [1] 0.1 "a" 1 ∅ scores' Hrun "d1"%string
              {["body"%string := ["a"; "b"; "a"]%string]} "body"%string
              ltac:(apply elem_of_cons; by left) ltac:(apply elem_of_cons; by left))
    as (f & Hf & Hne).
  exists scores', f. split; [exact Hrun|]. split; [exact Hf | exact Hne].
Defined.

(** ** ScorerLM *)

(** X14: when [ScorerLM.score_term] returns, a document whose field
    contains the term has gained
    [query_freq × ln((1 − λ) × tf / len + λ × P(t|C))], with [P(t|C)] the
    term's occurrences in the field over the whole collection divided by
    the total field length, and the other documents are untouched. *)
Theorem ScorerLM_contribution
    (coll : DocumentCollection) (field : string) (smoothing_param : R)
    (term : string) (query_freq : nat) (scores scores' : Scores) :
  NoDup (doc_ids coll) →
  ScorerLM_score_term coll field smoothing_param term query_freq scores = Ok scores' →
  ∃ occurrences total,
    collection_count coll field term = Ok occurrences ∧
    total_field_length coll field = Ok total ∧
    ∀ doc_id (doc : Document) f, (doc_id, doc) ∈ coll → doc !! field = Some f →
      (term ∈ f →
         scores' !! doc_id = Some (score_of scores doc_id +
           INR query_freq *
           ln ((1 - smoothing_param) * (INR (count term f) / INR (length f)) +
               smoothing_param * (INR occurrences / INR total)))) ∧
      (term ∉ f → scores' !! doc_id = scores !! doc_id).
Proof.
  intros Hnd Hrun. unfold ScorerLM_score_term in Hrun. cbn zeta in Hrun.
  apply bind_Ok_inv in Hrun as (occurrences & Hocc & Hrun).
  apply bind_Ok_inv in Hrun as (total & Htotal & Hrun).
  apply bind_Ok_inv in Hrun as (P_t_C & HP & Hrun).
  apply py_div_Ok_inv in HP as [_ ->].
  exists occurrences, total. do 2 (split; [done|]).
  intros doc_id doc f Hin Hf.
  destruct (for_items_at _ _ _ _ _ _ (ScorerLM_own _ _ _ _ _) Hnd Hin Hrun)
    as (s1 & s2 & Hdoc & Hs1 & Hs2).
  unfold ScorerLM_score_doc, getitem in Hdoc. rewrite Hf in Hdoc.
  cbn [mbind result_bind] in Hdoc. split; intros Ht.
  - apply contains_true in Ht. rewrite Ht in Hdoc.
    apply bind_Ok_inv in Hdoc as (p & Hp & Hdoc).
    apply bind_Ok_inv in Hdoc as (l & Hl & Hdoc). injection Hdoc as <-.
    apply py_div_Ok_inv in Hp as [_ ->]. apply math_log_Ok_inv in Hl as [_ ->].
    by rewrite Hs2, lookup_iadd_eq, (score_of_lookup_eq _ _ _ Hs1).
  - apply contains_false in Ht. rewrite Ht in Hdoc. injection Hdoc as <-.
    by rewrite Hs2.
Qed.

Lemma ScorerLM_contribution_witness :
  ∃ scores' occurrences total,
    ScorerLM_score_term coll_two_bodies "body" 0.1 "a" 2 ∅ = Ok scores' ∧
    collection_count coll_two_bodies "body" "a" = Ok occurrences ∧
    total_field_length coll_two_bodies "body" = Ok total ∧
    scores' !! "d2"%string = (∅ : Scores) !! "d2"%string.
Proof.
  assert (∃ scores', ScorerLM_score_term coll_two_bodies "body" 0.1 "a" 2 ∅
            = Ok scores') as [scores' Hrun].
  { unfold coll_two_bodies. unfold ScorerLM_score_term, ScorerLM_score_doc.
    py_eval. eexists. reflexivity. }
  destruct (ScorerLM_contribution coll_two_bodies "body" 0.1 "a" 2 ∅ scores'
              ltac:(solve_NoDup) Hrun) as (occurrences & total & Hocc & Htotal & Hdocs).
  exists scores', occurrences, total. do 3 (split; [done|]).
  apply (proj2 (Hdocs "d2"%string {["body"%string := ["b"; "b"]%string]}
                  ["b"; "b"]%string
                  ltac:(apply elem_of_cons; right; apply elem_of_cons; by left)
                  eq_refl)).
  apply (bool_decide_unpack _). by vm_compute.
Defined.

(** X15: with [smoothing_param = 1] the amount [ScorerLM.score_term] adds
    is the same for every document that contains the term:
    [query_freq × ln P(t|C)]. *)
Theorem ScorerLM_full_smoothing
    (coll : DocumentCollection) (field : string)
    (term : string) (query_freq : nat) (scores scores' : Scores) :
  NoDup (doc_ids coll) →
  ScorerLM_score_term coll field 1 term query_freq scores = Ok scores' →
  ∃ occurrences total,
    collection_count coll field term = Ok occurrences ∧
    total_field_length coll field = Ok total ∧
    ∀ doc_id (doc : Document) f, (doc_id, doc) ∈ coll → doc !! field = Some f →
      term ∈ f →
      scores' !! doc_id = Some (score_of scores doc_id +
        INR query_freq * ln (INR occurrences / INR total)).
Proof.
  intros Hnd Hrun. unfold ScorerLM_score_term in Hrun. cbn zeta in Hrun.
  apply bind_Ok_inv in Hrun as (occurrences & Hocc & Hrun).
  apply bind_Ok_inv in Hrun as (total & Htotal & Hrun).
  apply bind_Ok_inv in Hrun as (P_t_C & HP & Hrun).
  apply py_div_Ok_inv in HP as [_ ->].
  exists occurrences, total. do 2 (split; [done|]).
  intros doc_id doc f Hin Hf Ht.
  destruct (for_items_at _ _ _ _ _ _ (ScorerLM_own _ _ _ _ _) Hnd Hin Hrun)
    as (s1 & s2 & Hdoc & Hs1 & Hs2).
  unfold ScorerLM_score_doc, getitem in Hdoc. rewrite Hf in Hdoc.
  cbn [mbind result_bind] in Hdoc.
  apply contains_true in Ht. rewrite Ht in Hdoc.
  apply bind_Ok_inv in Hdoc as (p & Hp & Hdoc).
  apply bind_Ok_inv in Hdoc as (l & Hl & Hdoc). injection Hdoc as <-.
  apply math_log_Ok_inv in Hl as [_ ->].
  rewrite Hs2, lookup_iadd_eq, (score_of_lookup_eq _ _ _ Hs1).
  do 4 f_equal. ring.
Qed.

Lemma ScorerLM_full_smoothing_witness :
  ∃ scores' occurrences total,
    ScorerLM_score_term coll_two_bodies "body" 1 "b" 1 ∅ = Ok scores' ∧
    scores' !! "d1"%string
      = Some (score_of ∅ "d1" + INR 1 * ln (INR occurrences / INR total)) ∧
    scores' !! "d2"%string
      = Some (score_of ∅ "d2" + INR 1 * ln (INR occurrences / INR total)).
Proof.
  assert (∃ scores', ScorerLM_score_term coll_two_bodies "body" 1 "b" 1 ∅
            = Ok scores') as [scores' Hrun].
  { unfold coll_two_bodies. unfold ScorerLM_score_term, ScorerLM_score_doc.
    py_eval. eexists. reflexivity. }
  destruct (ScorerLM_full_smoothing coll_two_bodies "body" "b" 1 ∅ scores'
              ltac:(solve_NoDup) Hrun) as (occurrences & total & _ & _ & Hdocs).
  exists scores', occurrences, total. split; [exact Hrun|]. split.
  - apply (Hdocs "d1"%string {["body"%string := ["a"; "b"; "a"]%string]}
             ["a"; "b"; "a"]%string ltac:(apply elem_of_cons; by left) eq_refl).
    apply (bool_decide_unpack _). by vm_compute.
  - apply (Hdocs "d2"%string {["body"%string := ["b"; "b"]%string]}
             ["b"; "b"]%string
             ltac:(apply elem_of_cons; right; apply elem_of_cons; by left) eq_refl).
    apply (bool_decide_unpack _). by vm_compute.
Defined.

(** ** ScorerBM25: success, sign and failures *)

Lemma spec_total_field_length_ge (coll : DocumentCollection) field doc_id
    (doc : Document) f :
  (doc_id, doc) ∈ coll → doc !! field = Some f →
  (length f ≤ spec_total_field_length coll field)%nat.
Proof.
  intros Hin Hf. induction coll as [|[id0 doc0] rest IH].
  - by apply elem_of_nil in Hin.
  - unfold spec_total_field_length in *. cbn.
    apply elem_of_cons in Hin as [[= <- <-]|Hin].
    + rewrite Hf. cbn. lia.
    + specialize (IH Hin). lia.
Qed.

Lemma contains_length_pos (term : string) (f : list string) :
  term ∈ f → (0 < length f)%nat.
Proof. destruct f; [by intros ?%elem_of_nil | cbn; lia]. Qed.

Lemma avg_field_length_Ok_inv coll field avg :
  avg_field_length coll field = Ok avg →
  ∃ total, total_field_length coll field = Ok total ∧ coll ≠ [] ∧
    avg = INR total / INR (length coll).
Proof.
  unfold avg_field_length. intros H.
  apply bind_Ok_inv in H as (total & Htotal & H).
  apply py_div_Ok_inv in H as [Hlen ->]. exists total. split; [done|].
  split; [|done]. intros ->. by apply Hlen.
Qed.

Lemma avg_field_length_nonneg coll field avg :
  avg_field_length coll field = Ok avg → 0 <= avg.
Proof.
  intros (total & _ & Hne & ->)%avg_field_length_Ok_inv.
  apply Rle_mult_inv_pos; [apply pos_INR|].
  apply lt_0_INR. destruct coll; [done | cbn; lia].
Qed.

Lemma ln_nonneg x : 1 <= x → 0 <= ln x.
Proof.
  intros [Hlt| <-].
  - rewrite <- ln_1. left. apply ln_increasing; lra.
  - rewrite ln_1. lra.
Qed.

(** What a successful iteration of [ScorerBM25.score_term] has computed
    for a document that contains the term. *)
Lemma ScorerBM25_score_doc_Ok_inv coll idx field b k1 term query_freq doc_id
    (doc : Document) f s s' :
  doc !! field = Some f → term ∈ f →
  ScorerBM25_score_doc coll idx field b k1 term query_freq doc_id doc s = Ok s' →
  ∃ by_term postings avg,
    idx !! field = Some by_term ∧ by_term !! term = Some postings ∧
    INR (length postings) ≠ 0 ∧ 0 < INR (length coll) / INR (length postings) ∧
    avg_field_length coll field = Ok avg ∧ avg ≠ 0 ∧
    INR (count term f) + k1 * (1 - b + b * INR (length f) / avg) ≠ 0 ∧
    s' = iadd s doc_id
           (INR (count term f) * (1 + k1)
            / (INR (count term f) + k1 * (1 - b + b * INR (length f) / avg))
            * ln (INR (length coll) / INR (length postings))).
Proof.
  intros Hf Ht Hdoc. unfold ScorerBM25_score_doc, getitem in Hdoc.
  rewrite Hf in Hdoc. cbn [mbind result_bind] in Hdoc.
  apply contains_true in Ht. rewrite Ht in Hdoc.
  apply bind_Ok_inv in Hdoc as (idf & Hidf & Hdoc).
  apply bind_Ok_inv in Hdoc as (avg & Havg & Hdoc).
  apply bind_Ok_inv in Hdoc as (norm & Hnorm & Hdoc).
  apply bind_Ok_inv in Hdoc as (frac & Hfrac & Hdoc). injection Hdoc as <-.
  unfold idf_of in Hidf.
  apply bind_Ok_inv in Hidf as (by_term & Hfield & Hidf).
  apply bind_Ok_inv in Hidf as (postings & Hterm & Hidf).
  apply bind_Ok_inv in Hidf as (ratio & Hratio & Hidf).
  apply getitem_Ok in Hfield. apply getitem_Ok in Hterm.
  apply py_div_Ok_inv in Hratio as [Hdf ->].
  apply math_log_Ok_inv in Hidf as [Hpos ->].
  apply py_div_Ok_inv in Hnorm as [Havg0 ->].
  apply py_div_Ok_inv in Hfrac as [Hden ->].
  by exists by_term, postings, avg.
Qed.

(** X16: with [k1 = 0] the term frequency and the field lengths drop out:
    when [ScorerBM25.score_term] returns, every document whose field
    contains the term has gained the idf [ln (N / df)] alone. *)
Theorem ScorerBM25_k1_zero
    (coll : DocumentCollection) (idx : Index) (field : string) (b : R)
    (term : string) (query_freq : nat) (scores scores' : Scores) :
  NoDup (doc_ids coll) →
  ScorerBM25_score_term coll idx field b 0 term query_freq scores = Ok scores' →
  ∀ doc_id (doc : Document) f, (doc_id, doc) ∈ coll → doc !! field = Some f →
    term ∈ f →
    ∃ by_term postings,
      idx !! field = Some by_term ∧ by_term !! term = Some postings ∧
      scores' !! doc_id = Some (score_of scores doc_id +
        ln (INR (length coll) / INR (length postings))).
Proof.
  intros Hnd Hrun doc_id doc f Hin Hf Ht.
  destruct (for_items_at _ _ _ _ _ _ (ScorerBM25_own _ _ _ _ _ _ _) Hnd Hin Hrun)
    as (s1 & s2 & Hdoc & Hs1 & Hs2).
  destruct (ScorerBM25_score_doc_Ok_inv _ _ _ _ _ _ _ _ _ _ _ _ Hf Ht Hdoc)
    as (by_term & postings & avg & Hfield & Hterm & _ & _ & _ & Havg0 & Hden & ->).
  exists by_term, postings. do 2 (split; [done|]).
  rewrite Hs2, lookup_iadd_eq, (score_of_lookup_eq _ _ _ Hs1). do 2 f_equal.
  assert (INR (count term f) ≠ 0) as Htf.
  { intros H0. apply Hden. rewrite H0. ring. }
  replace (INR (count term f) * (1 + 0) /
           (INR (count term f) + 0 * (1 - b + b * INR (length f) / avg))) with 1;
    [ring|].
  field. by split.
Qed.

Lemma ScorerBM25_k1_zero_witness :
  ∃ scores' (postings : list string),
    ScorerBM25_score_term coll_two_bodies index_two_bodies "body" 0.75 0 "a" 1 ∅
      = Ok scores' ∧
    scores' !! "d1"%string
      = Some (score_of ∅ "d1" + ln (INR 2 / INR (length postings))).
Proof.
  assert (∃ scores', ScorerBM25_score_term coll_two_bodies index_two_bodies
            "body" 0.75 0 "a" 1 ∅ = Ok scores') as [scores' Hrun].
  { unfold coll_two_bodies, index_two_bodies.
    unfold ScorerBM25_score_term, ScorerBM25_score_doc, idf_of, avg_field_length.
    py_eval. eexists. reflexivity. }
  destruct (ScorerBM25_k1_zero coll_two_bodies index_two_bodies "body" 0.75 "a" 1
              ∅ scores' ltac:(solve_NoDup) Hrun
              "d1"%string {["body"%string := ["a"; "b"; "a"]%string]}
              ["a"; "b"; "a"]%string ltac:(apply elem_of_cons; by left) eq_refl
              ltac:(apply elem_of_cons; by left))
    as (by_term & postings & _ & _ & Hscore).
  exists scores', postings. split; [exact Hrun | exact Hscore].
Defined.

Lemma ScorerBM25_items_monotone coll idx field b k1 term query_freq items s s' :
  0 <= b <= 1 → 0 <= k1 →
  (∀ by_term postings, idx !! field = Some by_term →
     by_term !! term = Some postings → (length postings ≤ length coll)%nat) →
  for_items (ScorerBM25_score_doc coll idx field b k1 term query_freq) items s
    = Ok s' →
  ∀ d, score_of s d <= score_of s' d.
Proof.
  intros Hb Hk1 Hdf. revert s.
  induction items as [|[doc_id doc] rest IH]; intros s Hrun d; cbn [for_items] in Hrun.
  - injection Hrun as <-. lra.
  - apply bind_Ok_inv in Hrun as (s1 & Hdoc & Hrun).
    etransitivity; [|by apply IH]. clear IH Hrun.
    destruct (doc !! field) as [f|] eqn:Hf;
      [|unfold ScorerBM25_score_doc, getitem in Hdoc; by rewrite Hf in Hdoc].
    destruct (contains term f) eqn:Ht.
    + apply contains_true in Ht.
      destruct (ScorerBM25_score_doc_Ok_inv _ _ _ _ _ _ _ _ _ _ _ _ Hf Ht Hdoc)
        as (by_term & postings & avg & Hfield & Hterm & Hdf0 & Hratio & Havg
            & Havg0 & Hden & ->).
      destruct (decide (doc_id = d)) as [->|Hne];
        [|rewrite score_of_iadd_ne by done; lra].
      rewrite score_of_iadd_eq.
      pose proof (avg_field_length_nonneg _ _ _ Havg) as Havg1.
      pose proof (pos_INR (count term f)) as Htf.
      pose proof (pos_INR (length f)) as Hlen.
      assert (0 <= b * INR (length f) / avg) as Hnorm.
      { apply Rle_mult_inv_pos; [nra | lra]. }
      assert (0 <= ln (INR (length coll) / INR (length postings))) as Hidf.
      { apply ln_nonneg.
        assert (0 < INR (length postings)) as Hpos.
        { pose proof (pos_INR (length postings)). lra. }
        apply (Rmult_le_reg_r (INR (length postings))); [done|].
        unfold Rdiv. rewrite Rmult_assoc, Rinv_l by done.
        rewrite Rmult_1_l, Rmult_1_r. apply le_INR. by eapply Hdf. }
      assert (0 <= INR (count term f) * (1 + k1)
                  / (INR (count term f) + k1 * (1 - b + b * INR (length f) / avg)))
        as Hfrac.
      { apply Rle_mult_inv_pos; [nra|].
        assert (0 <= k1 * (1 - b + b * INR (length f) / avg)) by nra. lra. }
      nra.
    + unfold ScorerBM25_score_doc, getitem in Hdoc. rewrite Hf in Hdoc.
      cbn [mbind result_bind] in Hdoc. rewrite Ht in Hdoc. injection Hdoc as <-. lra.
Qed.

(** X17: with [0 ≤ b ≤ 1], [k1 ≥ 0] and an index whose posting list for
    the term is no longer than the collection, [ScorerBM25.score_term]
    lowers no score. *)
Theorem ScorerBM25_never_lowers_a_score
    (coll : DocumentCollection) (idx : Index) (field : string) (b k1 : R)
    (term : string) (query_freq : nat) (scores scores' : Scores) :
  0 <= b <= 1 → 0 <= k1 →
  (∀ by_term postings, idx !! field = Some by_term →
     by_term !! term = Some postings → (length postings ≤ length coll)%nat) →
  ScorerBM25_score_term coll idx field b k1 term query_freq scores = Ok scores' →
  ∀ d, score_of scores d <= score_of scores' d.
Proof. intros Hb Hk1 Hdf Hrun. by eapply ScorerBM25_items_monotone. Qed.

Lemma ScorerBM25_never_lowers_a_score_witness :
  ∃ scores',
    ScorerBM25_score_term coll_two_bodies index_two_bodies "body" 0.75 1.2 "a" 1 ∅
      = Ok scores' ∧
    score_of ∅ "d1" <= score_of scores' "d1".
Proof.
  assert (∃ scores', ScorerBM25_score_term coll_two_bodies index_two_bodies
            "body" 0.75 1.2 "a" 1 ∅ = Ok scores') as [scores' Hrun].
  { unfold coll_two_bodies, index_two_bodies.
    unfold ScorerBM25_score_term, ScorerBM25_score_doc, idf_of, avg_field_length.
    py_eval. eexists. reflexivity. }
  exists scores'. split; [exact Hrun|].
  apply (ScorerBM25_never_lowers_a_score coll_two_bodies index_two_bodies "body"
           0.75 1.2 "a" 1 ∅ scores'); [lra | lra | | exact Hrun].
  intros by_term postings Hfield Hterm.
  vm_compute in Hfield. injection Hfield as <-.
  vm_compute in Hterm. injection Hterm as <-. cbn. lia.
Defined.

Lemma ScorerBM25_items_total coll idx field b k1 term query_freq
    by_term postings items s :
  Forall (has_field field) coll →
  0 <= b <= 1 → 0 <= k1 →
  idx !! field = Some by_term → by_term !! term = Some postings → postings ≠ [] →
  (∀ item, item ∈ items → item ∈ coll) →
  ∃ s', for_items (ScorerBM25_score_doc coll idx field b k1 term query_freq) items s
        = Ok s'.
Proof.
  intros Hall Hb Hk1 Hfield Hterm Hpost. revert s.
  induction items as [|[doc_id doc] rest IH]; intros s Hsub; cbn [for_items].
  - by eexists.
  - assert ((doc_id, doc) ∈ coll) as Hin by (apply Hsub; by left).
    assert (∃ s1, ScorerBM25_score_doc coll idx field b k1 term query_freq
                    doc_id doc s = Ok s1) as [s1 ->].
    { rewrite Forall_forall in Hall. destruct (Hall _ Hin) as [f Hf]. cbn in Hf.
      unfold ScorerBM25_score_doc, getitem. rewrite Hf. cbn [mbind result_bind].
      destruct (contains term f) eqn:Ht; [|by eexists].
      apply contains_true in Ht.
      assert (0 < INR (length coll)) as HN.
      { apply lt_0_INR. destruct coll; [by apply elem_of_nil in Hin | cbn; lia]. }
      assert (0 < INR (length postings)) as Hdf.
      { apply lt_0_INR. destruct postings; [done | cbn; lia]. }
      unfold idf_of, getitem. rewrite Hfield. cbn [mbind result_bind].
      rewrite Hterm. cbn [mbind result_bind].
      rewrite py_div_Ok by lra. cbn [mbind result_bind].
      rewrite math_log_Ok by (by apply Rdiv_lt_0_compat). cbn [mbind result_bind].
      unfold avg_field_length.
      rewrite (total_field_length_has _ _ ltac:(by apply Forall_forall)).
      cbn [mbind result_bind]. rewrite py_div_Ok by lra. cbn [mbind result_bind].
      assert (0 < INR (spec_total_field_length coll field)) as Htotal.
      { apply lt_0_INR.
        pose proof (spec_total_field_length_ge _ _ _ _ _ Hin Hf).
        pose proof (contains_length_pos _ _ Ht). lia. }
      assert (0 < INR (spec_total_field_length coll field) / INR (length coll))
        as Havg by (by apply Rdiv_lt_0_compat).
      rewrite py_div_Ok by lra. cbn [mbind result_bind].
      rewrite py_div_Ok; [by eexists|].
      assert (1 <= INR (count term f)) as Htf.
      { apply (le_INR 1). by apply count_pos. }
      pose proof (pos_INR (length f)) as Hlen.
      assert (0 <= b * INR (length f)
                   / (INR (spec_total_field_length coll field) / INR (length coll)))
        as Hnorm.
      { apply Rle_mult_inv_pos; [nra | lra]. }
      assert (0 <= k1 * (1 - b + b * INR (length f)
                   / (INR (spec_total_field_length coll field) / INR (length coll))))
        by nra.
      lra. }
    cbn [mbind result_bind]. apply IH. intros item Hitem. apply Hsub. by right.
Qed.

(** X18: [ScorerBM25.score_term] returns (it raises nothing) when every
    document has the field, [0 ≤ b ≤ 1], [k1 ≥ 0] and the index holds a
    non-empty posting list for the term in the field. *)
Theorem ScorerBM25_returns
    (coll : DocumentCollection) (idx : Index) (field : string) (b k1 : R)
    (term : string) (query_freq : nat) (scores : Scores)
    (by_term : gmap string (list string)) (postings : list string) :
  Forall (has_field field) coll →
  0 <= b <= 1 → 0 <= k1 →
  idx !! field = Some by_term → by_term !! term = Some postings → postings ≠ [] →
  ∃ scores',
    ScorerBM25_score_term coll idx field b k1 term query_freq scores = Ok scores'.
Proof.
  intros Hall Hb Hk1 Hfield Hterm Hpost. unfold ScorerBM25_score_term.
  by eapply ScorerBM25_items_total.
Qed.

Lemma ScorerBM25_returns_witness :
  ∃ scores',
    ScorerBM25_score_term coll_two_bodies index_two_bodies "body" 0.75 1.2 "b" 3 ∅
      = Ok scores'.
Proof.
  apply (ScorerBM25_returns coll_two_bodies index_two_bodies "body" 0.75 1.2 "b" 3 ∅
           {["a"%string := ["d1"%string]; "b"%string := ["d1"; "d2"]%string]}
           ["d1"; "d2"]%string).
  - repeat constructor; eexists; reflexivity.
  - lra.
  - lra.
  - reflexivity.
  - reflexivity.
  - discriminate.
Defined.

Lemma py_div_Raise x y e : py_div x y = Raise e → e = ZeroDivisionError.
Proof. unfold py_div. destruct (Req_dec_T y 0); [by intros [= <-] | discriminate]. Qed.

Lemma getitem_Raise {V} (d : gmap string V) k e : getitem d k = Raise e → e = KeyError.
Proof. unfold getitem. destruct (d !! k); [discriminate | by intros [= <-]]. Qed.

Lemma total_field_length_Raise coll field e :
  total_field_length coll field = Raise e → e = KeyError.
Proof.
  induction coll as [|[doc_id doc] rest IH]; cbn; [discriminate|].
  destruct (getitem doc field) as [f|e'] eqn:Hf; cbn.
  - destruct (total_field_length rest field); cbn; [discriminate|].
    intros [= <-]. by apply IH.
  - intros [= <-]. by eapply getitem_Raise.
Qed.

Lemma ScorerBM25_score_doc_Raise coll idx field b k1 term query_freq doc_id doc s e :
  coll ≠ [] →
  ScorerBM25_score_doc coll idx field b k1 term query_freq doc_id doc s = Raise e →
  e = KeyError ∨ e = ZeroDivisionError.
Proof.
  intros Hcoll. unfold ScorerBM25_score_doc.
  destruct (getitem doc field) as [f|e0] eqn:Hf; cbn [mbind result_bind];
    [|intros [= <-]; left; by eapply getitem_Raise].
  destruct (contains term f); [|intros ?; discriminate].
  unfold idf_of.
  destruct (getitem idx field) as [by_term|e0] eqn:Hfield; cbn [mbind result_bind];
    [|intros [= <-]; left; by eapply getitem_Raise].
  destruct (getitem by_term term) as [postings|e0] eqn:Hterm; cbn [mbind result_bind];
    [|intros [= <-]; left; by eapply getitem_Raise].
  destruct (py_div (INR (length coll)) (INR (length postings))) as [ratio|e0] eqn:Hratio;
    cbn [mbind result_bind]; [|intros [= <-]; right; by eapply py_div_Raise].
  apply py_div_Ok_inv in Hratio as [Hdf ->].
  rewrite math_log_Ok; cbn [mbind result_bind].
  2:{ apply Rdiv_lt_0_compat.
      - apply lt_0_INR. destruct coll; [done | cbn; lia].
      - pose proof (pos_INR (length postings)). lra. }
  unfold avg_field_length.
  destruct (total_field_length coll field) as [total|e0] eqn:Htotal;
    cbn [mbind result_bind]; [|intros [= <-]; left; by eapply total_field_length_Raise].
  destruct (py_div (INR total) (INR (length coll))) as [avg|e0] eqn:Havg;
    cbn [mbind result_bind]; [|intros [= <-]; right; by eapply py_div_Raise].
  destruct (py_div (b * INR (length f)) avg) as [norm|e0] eqn:Hnorm;
    cbn [mbind result_bind]; [|intros [= <-]; right; by eapply py_div_Raise].
  cbn zeta.
  destruct (py_div (INR (count term f) * (1 + k1)) _) as [frac|e0] eqn:Hfrac;
    cbn [mbind result_bind]; [intros ?; discriminate|].
  intros [= <-]. right. by eapply py_div_Raise.
Qed.

(** X19: the only exceptions [ScorerBM25.score_term] raises are [KeyError]
    and [ZeroDivisionError]: the argument of its logarithm is always
    positive. *)
Theorem ScorerBM25_raises_only_KeyError_or_ZeroDivisionError
    (coll : DocumentCollection) (idx : Index) (field : string) (b k1 : R)
    (term : string) (query_freq : nat) (scores : Scores) (e : exn) :
  ScorerBM25_score_term coll idx field b k1 term query_freq scores = Raise e →
  e = KeyError ∨ e = ZeroDivisionError.
Proof.
  unfold ScorerBM25_score_term. destruct (decide (coll = [])) as [->|Hcoll];
    [discriminate|].
  generalize coll at 2. intros items. revert scores.
  induction items as [|[doc_id doc] rest IH]; intros scores; cbn [for_items];
    [discriminate|].
  destruct (ScorerBM25_score_doc coll idx field b k1 term query_freq doc_id doc scores)
    as [s1|e1] eqn:Hdoc; cbn [mbind result_bind].
  - apply IH.
  - intros [= <-]. by eapply ScorerBM25_score_doc_Raise.
Qed.

Lemma ScorerBM25_raises_only_KeyError_or_ZeroDivisionError_witness :
  ∃ e,
    ScorerBM25_score_term coll_missing_body index_missing_body "body" 0.75 1.2
      "c" 1 ∅ = Raise e ∧
    (e = KeyError ∨ e = ZeroDivisionError).
Proof.
  assert (ScorerBM25_score_term coll_missing_body index_missing_body "body" 0.75 1.2
            "c" 1 ∅ = Raise KeyError) as Hrun.
  { unfold coll_missing_body, index_missing_body.
    unfold ScorerBM25_score_term, ScorerBM25_score_doc. py_eval. reflexivity. }
  exists KeyError. split; [exact Hrun|].
  exact (ScorerBM25_raises_only_KeyError_or_ZeroDivisionError coll_missing_body
           index_missing_body "body" 0.75 1.2 "c" 1 ∅ KeyError Hrun).
Defined.

(** ** ScorerMLM with one field *)

(** X20: with a single field and weight [w], a [ScorerMLM.score_term] that
    returns has added [ln((1 − λ) × w × tf / len + λ × w × P(t|C))] to the
    score of every document of the collection, whether or not the document
    contains the term, and whatever the query frequency. *)
Theorem ScorerMLM_single_field_contribution
    (coll : DocumentCollection) (field : string) (w smoothing_param : R)
    (term : string) (query_freq : nat) (scores scores' : Scores) :
  NoDup (doc_ids coll) →
  ScorerMLM_score_term coll [field] [w] smoothing_param term query_freq scores
    = Ok scores' →
  ∀ doc_id (doc : Document), (doc_id, doc) ∈ coll →
    ∃ f occurrences total,
      doc !! field = Some f ∧
      collection_count coll field term = Ok occurrences ∧
      total_field_length coll field = Ok total ∧
      scores' !! doc_id = Some (score_of scores doc_id +
        ln ((1 - smoothing_param) * (w * (INR (count term f) / INR (length f))) +
            smoothing_param * (w * (INR occurrences / INR total)))).
Proof.
  intros Hnd Hrun doc_id doc Hin. unfold ScorerMLM_score_term in Hrun.
  destruct (for_items_at _ _ _ _ _ _ (ScorerMLM_own _ _ _ _ _ _) Hnd Hin Hrun)
    as (s1 & s2 & Hdoc & Hs1 & Hs2).
  unfold ScorerMLM_score_doc in Hdoc. cbn zeta in Hdoc. cbn [for_enumerate] in Hdoc.
  unfold ScorerMLM_score_field in Hdoc.
  apply bind_Ok_inv in Hdoc as ([c_t_d P_t_C] & Hfields & Hdoc).
  apply bind_Ok_inv in Hfields as ([c P] & Hfield & Hret). injection Hret as -> ->.
  apply bind_Ok_inv in Hfield as (w' & Hw & Hfield). injection Hw as <-.
  apply bind_Ok_inv in Hfield as (f & Hf & Hfield). apply getitem_Ok in Hf.
  apply bind_Ok_inv in Hfield as (p & Hp & Hfield).
  apply bind_Ok_inv in Hfield as (occurrences & Hocc & Hfield).
  apply bind_Ok_inv in Hfield as (total & Htotal & Hfield).
  apply bind_Ok_inv in Hfield as (pc & Hpc & Hfield). injection Hfield as <- <-.
  apply py_div_Ok_inv in Hp as [_ ->]. apply py_div_Ok_inv in Hpc as [_ ->].
  apply bind_Ok_inv in Hdoc as (l & Hl & Hdoc). injection Hdoc as <-.
  apply math_log_Ok_inv in Hl as [_ ->].
  exists f, occurrences, total. do 3 (split; [done|]).
  rewrite Hs2, lookup_iadd_eq, (score_of_lookup_eq _ _ _ Hs1).
  do 3 f_equal. ring.
Qed.

Lemma ScorerMLM_single_field_contribution_witness :
  ∃ scores' f occurrences total,
    ScorerMLM_score_term coll_two_bodies ["body"%string] [1] 0.1 "a" 1 ∅
      = Ok scores' ∧
    ({["body"%string := ["b"; "b"]%string]} : Document) !! "body"%string = Some f ∧
    scores' !! "d2"%string = Some (score_of ∅ "d2" +
      ln ((1 - 0.1) * (1 * (INR (count "a" f) / INR (length f))) +
          0.1 * (1 * (INR occurrences / INR total)))).
Proof.
  assert (∃ scores', ScorerMLM_score_term coll_two_bodies ["body"%string] [1] 0.1
            "a" 1 ∅ = Ok scores') as [scores' Hrun].
  { unfold coll_two_bodies.
    unfold ScorerMLM_score_term, ScorerMLM_score_doc, ScorerMLM_score_field.
    py_eval. eexists. reflexivity. }
  destruct (ScorerMLM_single_field_contribution coll_two_bodies "body" 1 0.1 "a" 1
              ∅ scores' ltac:(solve_NoDup) Hrun
              "d2"%string {["body"%string := ["b"; "b"]%string]}
              ltac:(apply elem_of_cons; right; apply elem_of_cons; by left))
    as (f & occurrences & total & Hf & _ & _ & Hscore).
  exists scores', f, occurrences, total. split; [exact Hrun|].
  split; [exact Hf | exact Hscore].
Defined.
